(** * Crossword constraint solver (Week3/Project3/crossword/generate.py)

    A shallow embedding of [CrosswordCreator]: node consistency, [revise],
    AC-3, the ordering heuristics and the backtracking search, together with
    the properties of the specification that concern them.

    Conventions of the embedding.
    - A Python [set] is a [gset]; iterating over it is iterating over
      [elements].  A [dict] keyed by slots whose iteration order is never
      observable ([self.domains]) is a [gmap]; the assignment, whose items
      are visited in insertion order by [consistent], is an insertion-ordered
      association list.
    - A function that can raise ([KeyError] on a missing key, [IndexError] on
      a character offset past the end of a word or on [valid[0]] of an empty
      list) returns an [option]; [None] is the raised exception.
    - [self.domains] is a reference to a dictionary object.  The objects live
      in a heap ([Store]); [deepcopy] allocates, [self.domains = prev_domains]
      only moves the reference. *)

From stdpp Require Import gmap strings list fin_maps sorting.
From Stdlib Require Import Ascii ZArith Lia.

Open Scope string_scope.
Open Scope list_scope.
Open Scope nat_scope.

#[global] Set Warnings "-clear-no-such-hyp".

(** ** The collaborators of the solver (crossword.py) *)

Inductive Direction := ACROSS | DOWN.

(** Modelled from the spec: the class [Variable] of crossword.py is not part
    of the sources at hand.  "Slot (Variable): identity = (row, column,
    direction, length).  Direction is one of {ACROSS, DOWN}."  ([Variable] is
    a reserved word, the record takes the spec's name.) *)
Record Slot := mkSlot {
  var_i : nat;
  var_j : nat;
  var_direction : Direction;
  var_length : nat
}.

#[global] Instance Direction_eq_dec : EqDecision Direction.
Proof. solve_decision. Defined.

#[global] Instance Slot_eq_dec : EqDecision Slot.
Proof. solve_decision. Defined.

#[global] Instance Direction_countable : Countable Direction.
Proof.
  refine (inj_countable'
            (λ dir, match dir with ACROSS => false | DOWN => true end)
            (λ b : bool, if b then DOWN else ACROSS) _).
  by intros [].
Defined.

#[global] Instance Slot_countable : Countable Slot.
Proof.
  refine (inj_countable'
            (λ v, (var_i v, var_j v, var_direction v, var_length v))
            (λ '(r, c, dir, len), mkSlot r c dir len) _).
  by intros [].
Defined.

(** Modelled from the spec: the class [Crossword] of crossword.py is not part
    of the sources at hand.  The solver is given "a fixed set of slot
    variables", "an overlap relation telling which pairs of slots share a
    cell and at which offsets" (either [None] or a pair of offsets), "a
    neighbor lookup per slot" and "an initial word list". *)
Record Crossword := mkCrossword {
  variables : gset Slot;
  words : gset string;
  overlaps : Slot → Slot → option (nat * nat);
  neighbors : Slot → gset Slot
}.

(** ** Python dictionaries with insertion order *)

Section dict.
Context {K V : Type} `{EqDecision K}.

(** [d[k]] and [k in d] *)
Fixpoint dict_get (d : list (K * V)) (k : K) : option V :=
  match d with
  | [] => None
  | (k', v) :: d' => if decide (k = k') then Some v else dict_get d' k
  end.

(** [d[k] = v]: an existing key keeps its place, a new key goes last *)
Fixpoint dict_set (d : list (K * V)) (k : K) (v : V) : list (K * V) :=
  match d with
  | [] => [(k, v)]
  | (k', v') :: d' =>
      if decide (k = k') then (k', v) :: d' else (k', v') :: dict_set d' k v
  end.

(** [del d[k]], which raises on a missing key *)
Fixpoint dict_del (d : list (K * V)) (k : K) : option (list (K * V)) :=
  match d with
  | [] => None
  | (k', v') :: d' =>
      if decide (k = k') then Some d' else rest ← dict_del d' k; Some ((k', v') :: rest)
  end.
End dict.

(** ** Stable sorting, as [list.sort(key=...)] *)

Section sorting.
Context {A : Type} (le : A → A → bool).

Fixpoint insert_by (x : A) (l : list A) : list A :=
  match l with
  | [] => [x]
  | y :: l' => if le x y then x :: y :: l' else y :: insert_by x l'
  end.

(** each element is put in front of the later elements it does not
    exceed, so equal keys keep their order *)
Definition stable_sort (l : list A) : list A := foldr insert_by [] l.
End sorting.

(** A loop whose body can raise. *)
Fixpoint foldlM {A B : Type} (f : B → A → option B) (b : B) (l : list A) : option B :=
  match l with
  | [] => Some b
  | x :: l' => b' ← f b x; foldlM f b' l'
  end.

Abbreviation Domains := (gmap Slot (gset string)).
Abbreviation Assignment := (list (Slot * string)).
Abbreviation Arc := (Slot * Slot)%type.

(** ** The domain store on the heap *)

(** Ghost events: they are not data of the program, they record which
    statements of [backtrack] ran. *)
Inductive Event :=
  | Enter (a : Assignment)                   (* backtrack(assignment) was called *)
  | Commit (var : Slot) (value : string)     (* assignment[var] = value *)
  | Undo (var : Slot).                       (* del assignment[var] *)

Record Store := mkStore {
  objs : nat → Domains;     (* the dictionary objects *)
  next : nat;               (* the next free address *)
  cur : nat;                (* self.domains *)
  trace : list Event        (* ghost *)
}.

(** the contents of [self.domains] *)
Definition current (st : Store) : Domains := objs st (cur st).

(** mutation of the object [self.domains] refers to *)
Definition set_current (st : Store) (d : Domains) : Store :=
  mkStore (λ l, if decide (l = cur st) then d else objs st l) (next st) (cur st) (trace st).

(** [deepcopy(self.domains)]: a new object with the same contents *)
Definition deepcopy (st : Store) : nat * Store :=
  (next st,
   mkStore (λ l, if decide (l = next st) then current st else objs st l)
           (S (next st)) (cur st) (trace st)).

(** [self.domains = prev_domains]: only the reference changes *)
Definition set_cur (st : Store) (l : nat) : Store :=
  mkStore (objs st) (next st) l (trace st).

Definition log (e : Event) (st : Store) : Store :=
  mkStore (objs st) (next st) (cur st) (trace st ++ [e]).

Section CrosswordCreator.
Context (cw : Crossword).

(** [__init__]: every slot starts with a copy of the vocabulary *)
Definition init_domains : Domains :=
  set_to_map (λ var, (var, words cw)) (variables cw).

Definition init_store : Store := mkStore (λ _, init_domains) 1 0 [].

(** ** enforce_node_consistency *)

Definition enforce_node_consistency (d : Domains) : Domains :=
  map_imap (λ var ws,
    let to_remove := filter (λ word, String.length word ≠ var_length var) ws in
    Some (ws ∖ to_remove)) d.

(** ** check_overlap *)

Definition check_overlap (x y : Slot) (word_x word_y : string) : option bool :=
  match overlaps cw x y with
  | None => Some true
  | Some (i, j) =>
      cx ← String.get i word_x;
      cy ← String.get j word_y;
      Some (bool_decide (cx = cy))
  end.

(** ** revise *)

(** the inner loop: is there a [word_y] that makes [word_x] valid? *)
Fixpoint find_support (x y : Slot) (word_x : string) (ys : list string) : option bool :=
  match ys with
  | [] => Some false
  | word_y :: ys' =>
      if decide (word_x = word_y) then find_support x y word_x ys'
      else
        ok ← check_overlap x y word_x word_y;
        if ok : bool then Some true else find_support x y word_x ys'
  end.

(** the outer loop, with its two accumulators *)
Fixpoint revise_loop (x y : Slot) (d : Domains) (xs : list string)
    (revised : bool) (to_remove : gset string) : option (bool * gset string) :=
  match xs with
  | [] => Some (revised, to_remove)
  | word_x :: xs' =>
      dy ← d !! y;
      valid ← find_support x y word_x (elements dy);
      if valid : bool then revise_loop x y d xs' revised to_remove
      else revise_loop x y d xs' true ({[word_x]} ∪ to_remove)
  end.

Definition revise (x y : Slot) (d : Domains) : option (bool * Domains) :=
  dx ← d !! x;
  '(revised, to_remove) ← revise_loop x y d (elements dx) false ∅;
  Some (revised, <[x := dx ∖ to_remove]> d).

(** ** ac3 *)

(** the arcs of the whole problem, for [arcs is None] *)
Definition all_arcs : gset Arc :=
  foldl (λ arcs var,
           foldl (λ arcs neighbor, {[(var, neighbor)]} ∪ arcs)
                 arcs (elements (neighbors cw var)))
        ∅ (elements (variables cw)).

(** the arcs appended after a revision of [x] against [y] *)
Definition requeue (x y : Slot) : list Arc :=
  (λ neighbor, (neighbor, x)) <$> filter (λ neighbor, neighbor ≠ y) (elements (neighbors cw x)).

(** the [while queue:] loop; [fuel] bounds the number of iterations *)
Fixpoint ac3_loop (fuel : nat) (queue : list Arc) (d : Domains) : option (bool * Domains) :=
  match fuel with
  | 0 => None
  | S fuel' =>
      match queue with
      | [] => Some (true, d)
      | (x, y) :: queue' =>
          '(revised, d') ← revise x y d;
          if revised : bool then
            dx ← d' !! x;
            if decide (dx = (∅ : gset string)) then Some (false, d')
            else ac3_loop fuel' (queue' ++ requeue x y) d'
          else ac3_loop fuel' queue' d'
      end
  end.

(** every removal of a word of [x] pays for the arcs it appends *)
Definition weight (d : Domains) : nat :=
  map_fold (λ x ws acc, size ws * S (size (neighbors cw x)) + acc) 0 d.

Definition ac3_fuel (queue : list Arc) (d : Domains) : nat :=
  S (length queue + weight d).

Definition ac3_queue (queue : list Arc) (d : Domains) : option (bool * Domains) :=
  ac3_loop (ac3_fuel queue d) queue d.

Definition ac3 (arcs : option (list Arc)) (d : Domains) : option (bool * Domains) :=
  let queue := match arcs with
               | None => elements all_arcs
               | Some l => l
               end in
  ac3_queue queue d.

(** Follows the spec's words, to be compared with [ac3]: "process arcs
    from a FIFO queue: pop arc (x, y); if revise(x, y) removed anything,
    then (a) fail immediately if domain(x) is now empty, and (b) otherwise
    re-enqueue every arc (z, x) for every neighbor z of x other than y.
    Terminates when the queue empties (success) or a domain empties
    (failure)."  The outcome [None] is an exception raised by [revise]. *)
Inductive ac3_spec : list Arc → Domains → option (bool * Domains) → Prop :=
  | ac3_spec_exhausted d :
      ac3_spec [] d (Some (true, d))
  | ac3_spec_raise x y queue d :
      revise x y d = None →
      ac3_spec ((x, y) :: queue) d None
  | ac3_spec_unchanged x y queue d d' out :
      revise x y d = Some (false, d') →
      ac3_spec queue d' out →
      ac3_spec ((x, y) :: queue) d out
  | ac3_spec_emptied x y queue d d' :
      revise x y d = Some (true, d') →
      d' !! x = Some ∅ →
      ac3_spec ((x, y) :: queue) d (Some (false, d'))
  | ac3_spec_requeue x y queue d d' dx out :
      revise x y d = Some (true, d') →
      d' !! x = Some dx → dx ≠ ∅ →
      ac3_spec (queue ++ ((λ z, (z, x)) <$> filter (λ z, z ≠ y) (elements (neighbors cw x)))) d' out →
      ac3_spec ((x, y) :: queue) d out.

(** ** assignment_complete *)

Definition assignment_complete (a : Assignment) : bool :=
  bool_decide (size (variables cw) = length a).

(** ** consistent *)

(** the loop over the neighbors of [var] *)
Fixpoint consistent_neighbors (a : Assignment) (var : Slot) (nbs : list Slot) : option bool :=
  match nbs with
  | [] => Some true
  | neighbor :: nbs' =>
      match dict_get a neighbor with
      | Some _ =>
          value ← dict_get a var;
          neighbor_value ← dict_get a neighbor;
          ok ← check_overlap var neighbor value neighbor_value;
          if ok : bool then consistent_neighbors a var nbs' else Some false
      | None => consistent_neighbors a var nbs'
      end
  end.

(** the loop over [assignment.items()] *)
Fixpoint consistent_items (a : Assignment) (items : list (Slot * string))
    (used : gset string) : option bool :=
  match items with
  | [] => Some true
  | (var, value) :: items' =>
      if bool_decide (String.length value ≠ var_length var) || bool_decide (value ∈ used)
      then Some false
      else
        ok ← consistent_neighbors a var (elements (neighbors cw var));
        if ok : bool then consistent_items a items' ({[value]} ∪ used) else Some false
  end.

Definition consistent (a : Assignment) : option bool := consistent_items a a ∅.

(** ** order_domain_values *)

(** [counts[value]] once the two inner loops have run *)
Definition count_ruled_out (var : Slot) (d : Domains) (value : string) : option nat :=
  foldlM (λ count neighbor,
            dn ← d !! neighbor;
            foldlM (λ count neighbor_value,
                      ok ← check_overlap var neighbor value neighbor_value;
                      Some (if ok : bool then count else S count))
                   count (elements (dn : gset string)))
         0 (elements (neighbors cw var)).

Definition order_domain_values (var : Slot) (a : Assignment) (d : Domains)
    : option (list string) :=
  dv ← d !! var;
  counts ← mapM (λ value, count ← count_ruled_out var d value; Some (count, value))
                (elements (dv : gset string));
  Some (snd <$> stable_sort (λ p q : nat * string, (p.1 <=? q.1)%nat) counts).

(** ** select_unassigned_variable *)

Definition unassigned (a : Assignment) : list Slot :=
  filter (λ var, dict_get a var = None) (elements (variables cw)).

(** comparison of the sort keys [(len(domain), -degree)] *)
Definition key_le (k1 k2 : nat * Z) : bool :=
  (k1.1 <? k2.1)%nat || ((k1.1 =? k2.1)%nat && (k1.2 <=? k2.2)%Z).

(** the sort key of [x], paired with [x] *)
Definition sort_key (d : Domains) (x : Slot) : option (nat * Z * Slot) :=
  dx ← d !! x;
  Some ((size (dx : gset string), (- Z.of_nat (size (neighbors cw x)))%Z), x).

Definition select_unassigned_variable (a : Assignment) (d : Domains) : option Slot :=
  let valid := unassigned a in
  keyed ← mapM (sort_key d) valid;
  head (snd <$> stable_sort (λ p q : (nat * Z) * Slot, key_le p.1 q.1) keyed).

(** ** backtrack *)

(** [if result:] on a value that is a dictionary or [None] *)
Definition truthy (result : option Assignment) : bool :=
  match result with
  | Some (_ :: _) => true
  | _ => false
  end.

(** What a call of [backtrack] leaves: the returned value, the contents of
    the dictionary [assignment] (one object, mutated in place) and the
    store. *)
Definition Outcome : Type := option (option Assignment * Assignment * Store).

(** the [for value in ...] loop; [rec] is the recursive call *)
Fixpoint try_values (rec : Assignment → Store → Outcome)
    (var : Slot) (prev_domains : nat) (values : list string)
    (a : Assignment) (st : Store) : Outcome :=
  match values with
  | [] => Some (None, a, st)
  | value :: values' =>
      ok ← consistent a;
      if ok : bool then
        let a1 := dict_set a var value in
        let st1 := log (Commit var value) st in
        let st2 := set_current st1 (<[var := {[value]}]> (current st1)) in
        '(_, d3) ← ac3 (Some ((λ neighbor, (neighbor, var)) <$> elements (neighbors cw var)))
                       (current st2);
        let st3 := set_current st2 d3 in
        '(result, a4, st4) ← rec a1 st3;
        if truthy result then Some (result, a4, st4)
        else
          a5 ← dict_del a4 var;
          try_values rec var prev_domains values' a5
                     (set_cur (log (Undo var) st4) prev_domains)
      else try_values rec var prev_domains values' a st
  end.

(** [fuel] bounds the depth of the recursion *)
Fixpoint backtrack_rec (fuel : nat) (a : Assignment) (st : Store) : Outcome :=
  match fuel with
  | 0 => None
  | S fuel' =>
      let st0 := log (Enter a) st in
      if assignment_complete a then Some (Some a, a, st0)
      else
        var ← select_unassigned_variable a (current st0);
        let '(prev_domains, st1) := deepcopy st0 in
        values ← order_domain_values var a (current st1);
        try_values (backtrack_rec fuel') var prev_domains values a st1
  end.

(** every recursive call assigns one more slot *)
Definition backtrack (a : Assignment) (st : Store) : Outcome :=
  backtrack_rec (S (length (unassigned a))) a st.

(** ** solve *)

Definition solve : option (option Assignment * Store) :=
  let st1 := set_current init_store (enforce_node_consistency (current init_store)) in
  '(_, d2) ← ac3 None (current st1);
  let st2 := set_current st1 d2 in
  '(result, _, st3) ← backtrack [] st2;
  Some (result, st3).

End CrosswordCreator.

(** ** Puzzles used as concrete inputs *)

Definition no_overlaps : Slot → Slot → option (nat * nat) := λ _ _, None.
Definition no_neighbors : Slot → gset Slot := λ _, ∅.

Definition row (r len : nat) : Slot := mkSlot r 0 ACROSS len.

(** two rows of three cells that do not touch, one word *)
Definition two_rows : Crossword :=
  mkCrossword {[row 0 3; row 2 3]} {["CAT"]} no_overlaps no_neighbors.

(** four rows of two cells that do not touch, two words *)
Definition four_rows : Crossword :=
  mkCrossword {[row 0 2; row 2 2; row 4 2; row 6 2]} {["AB"; "CD"]} no_overlaps no_neighbors.

(** a row and a column of two cells sharing their first cell *)
Definition across : Slot := mkSlot 0 0 ACROSS 2.
Definition down : Slot := mkSlot 0 0 DOWN 2.

Definition corner_overlaps (x y : Slot) : option (nat * nat) :=
  if decide ((x = across ∧ y = down) ∨ (x = down ∧ y = across)) then Some (0, 0) else None.

Definition corner_neighbors (x : Slot) : gset Slot :=
  if decide (x = across) then {[down]}
  else if decide (x = down) then {[across]} else ∅.

Definition corner (vocabulary : gset string) : Crossword :=
  mkCrossword {[across; down]} vocabulary corner_overlaps corner_neighbors.


(** the store with which [solve] calls [backtrack] *)
Definition search_store (cw : Crossword) : option Store :=
  let st1 := set_current (init_store cw) (enforce_node_consistency (current (init_store cw))) in
  '(_, d2) ← ac3 cw None (current st1);
  Some (set_current st1 d2).

(** The first call of [backtrack] that [solve] makes, with its loop taken
    one candidate at a time: the selected slot, the ordered candidates, the
    store when the loop starts, and for two candidates in turn the result of
    the branch ([None] when it failed and was undone) with the store after
    it. *)
Definition first_call_branches (cw : Crossword) (value1 value2 : string)
    : option (Slot * list string * Domains
              * (option Assignment * Domains) * (option Assignment * Domains)) :=
  st2 ← search_store cw;
  let '(prev_domains, st1) := deepcopy (log (Enter []) st2) in
  var ← select_unassigned_variable cw [] (current st1);
  values ← order_domain_values cw var [] (current st1);
  let branch value st :=
    try_values cw (backtrack_rec cw (length (unassigned cw []))) var prev_domains [value] [] st in
  '(result1, _, stA) ← branch value1 st1;
  '(result2, _, stB) ← branch value2 stA;
  Some (var, values, current st1, (result1, current stA), (result2, current stB)).

(** ** Predicates of the specification *)

(** the verdict of the inner loop of [revise] on [word_x], with the lookup
    of [self.domains[y]] that precedes it *)
Definition verdict (cw : Crossword) (x y : Slot) (d : Domains) (word_x : string) : option bool :=
  dy ← d !! y; find_support cw x y word_x (elements (dy : gset string)).


(** "words are only ever removed, never added", with the same slots as keys *)
Definition shrinks (d d' : Domains) : Prop :=
  dom d' = dom d ∧
  ∀ v ws', d' !! v = Some ws' → ∃ ws, d !! v = Some ws ∧ ws' ⊆ ws.

(** "if no overlap exists between x and y, all pairs are compatible;
    otherwise compare the specified character offsets of the two candidate
    words" *)
Definition compatible (cw : Crossword) (x y : Slot) (w w' : string) : Prop :=
  match overlaps cw x y with
  | None => True
  | Some (i, j) => ∃ c, String.get i w = Some c ∧ String.get j w' = Some c
  end.

(** what [revise x y] is said to do to a store [d], whenever it returns *)
Definition revise_claim (cw : Crossword) (x y : Slot) (d : Domains) : Prop :=
  ∀ revised d', revise cw x y d = Some (revised, d') →
    ∃ dx dx' : gset string,
      d !! x = Some dx ∧ d' !! x = Some dx' ∧ dx' ⊆ dx ∧
      (∀ w, w ∈ dx →
         (w ∉ dx' ↔
          ¬ ∃ (dy : gset string) w',
              d !! y = Some dy ∧ w' ∈ dy ∧ w' ≠ w ∧ compatible cw x y w w')) ∧
      d' !! y = d !! y ∧
      (revised = true ↔ ∃ w, w ∈ dx ∧ w ∉ dx').

(** what a call [revise x y] that returned [revised] has done to the store
    [d], leaving [d']: the same as [revise_claim], except that the clause
    on [domain(y)] is the frame of the call, "every domain other than
    [domain(x)] is as it was", which says nothing of [domain(y)] when [y]
    is [x] *)
Definition revise_effect (cw : Crossword) (x y : Slot) (d : Domains)
    (revised : bool) (d' : Domains) : Prop :=
  ∃ dx dx' : gset string,
    d !! x = Some dx ∧ d' !! x = Some dx' ∧ dx' ⊆ dx ∧
    (∀ w, w ∈ dx →
       (w ∉ dx' ↔
        ¬ ∃ (dy : gset string) w',
            d !! y = Some dy ∧ w' ∈ dy ∧ w' ≠ w ∧ compatible cw x y w w')) ∧
    (∀ z, z ≠ x → d' !! z = d !! z) ∧
    (revised = true ↔ ∃ w, w ∈ dx ∧ w ∉ dx').

(** What a call of [backtrack] leaves of the dictionary it was given: on failure the
    entries it had at the call, on success the returned dictionary, which
    extends them. *)
Definition bt_post (a : Assignment) (out : option Assignment * Assignment * Store) : Prop :=
  match out.1.1 with
  | None => out.1.2 = a
  | Some r => r = out.1.2 ∧ ∃ ext : Assignment, out.1.2 = (a ++ ext)%list
  end.

(** "if the global AC-3 pass empties any domain, the solver reports
    unsatisfiable without entering backtracking" *)
Definition fails_fast (cw : Crossword) : Prop :=
  ∀ d2, ac3 cw None (enforce_node_consistency (init_domains cw)) = Some (false, d2) →
    ∃ st, solve cw = Some (None, st) ∧ ∀ a, Enter a ∉ trace st.

(** "complete, pairwise-distinct in values, every slot's word length
    matches, and every neighboring pair agrees at overlap offsets" *)
Definition valid_solution (cw : Crossword) (a : Assignment) : Prop :=
  (∀ v, v ∈ variables cw → is_Some (dict_get a v)) ∧
  (∀ v1 v2 w, dict_get a v1 = Some w → dict_get a v2 = Some w → v1 = v2) ∧
  (∀ v w, dict_get a v = Some w → String.length w = var_length v) ∧
  (∀ v1 v2 w1 w2, v2 ∈ neighbors cw v1 →
     dict_get a v1 = Some w1 → dict_get a v2 = Some w2 → compatible cw v1 v2 w1 w2).

(** ** Conditions on the puzzle and on the store *)

(** every word of every domain has the length of its slot *)
Definition node_consistent (d : Domains) : Prop :=
  ∀ v (ws : gset string) w, d !! v = Some ws → w ∈ ws → String.length w = var_length v.

(** the offsets of an overlap point inside the two slots *)
Definition overlaps_in_range (cw : Crossword) : Prop :=
  ∀ x y i j, overlaps cw x y = Some (i, j) → i < var_length x ∧ j < var_length y.

(** "Overlap data is symmetric": the overlap of [(y, x)] is that of
    [(x, y)] with the offsets exchanged *)
Definition overlaps_symmetric (cw : Crossword) : Prop :=
  ∀ x y, overlaps cw y x = (λ p, (p.2, p.1)) <$> overlaps cw x y.

Definition neighbors_symmetric (cw : Crossword) : Prop :=
  ∀ x y, y ∈ neighbors cw x → x ∈ neighbors cw y.

Definition neighbors_irreflexive (cw : Crossword) : Prop :=
  ∀ x, x ∉ neighbors cw x.

(** the neighbors of a slot of the puzzle are slots of the puzzle *)
Definition neighbors_closed (cw : Crossword) : Prop :=
  ∀ x y, x ∈ variables cw → y ∈ neighbors cw x → y ∈ variables cw.

(** Modelled from the spec: the overlap relation is given "for an unordered
    pair of slots (x, y) that cross", as a table over the pairs of slots of
    the puzzle.  [check_overlap] reads it with the subscript
    [self.crossword.overlaps[x, y]], which raises [KeyError] on a pair the
    table does not hold, such as [(x, x)]; the total function [overlaps]
    has no such outcome.  What is stated on when [check_overlap], [revise]
    or [ac3] raise is therefore stated for the pairs of the table: two
    different slots of the puzzle. *)
Definition table_pair (cw : Crossword) (x y : Slot) : Prop :=
  x ≠ y ∧ x ∈ variables cw ∧ y ∈ variables cw.

(** every word of [domain(x)] has a word of [domain(y)], other than itself,
    that is compatible with it *)
Definition arc_consistent (cw : Crossword) (d : Domains) (x y : Slot) : Prop :=
  ∀ (dx : gset string) w, d !! x = Some dx → w ∈ dx →
    ∃ (dy : gset string) w', d !! y = Some dy ∧ w' ∈ dy ∧ w' ≠ w ∧ compatible cw x y w w'.

(** the arcs of a worklist are arcs of the constraint graph *)
Definition graph_arcs (cw : Crossword) (queue : list Arc) : Prop :=
  ∀ x y, (x, y) ∈ queue → y ∈ neighbors cw x.

(** every arc of the graph that starts at a slot of the puzzle is either
    still to be processed or consistent *)
Definition pending_or_consistent (cw : Crossword) (queue : list Arc) (d : Domains) : Prop :=
  ∀ x y, x ∈ variables cw → y ∈ neighbors cw x →
    (x, y) ∈ queue ∨ arc_consistent cw d x y.

(** the slots of a worklist are keys of the store, and so are the neighbors
    of its keys *)
Definition arcs_in (cw : Crossword) (queue : list Arc) (d : Domains) : Prop :=
  (∀ x y, (x, y) ∈ queue → x ∈ dom d ∧ y ∈ dom d) ∧
  (∀ x y, x ∈ dom d → y ∈ neighbors cw x → y ∈ dom d).

(** ** Invariants of the search *)

(** the keys of the assignment are slots of the puzzle (a dictionary has
    each key once) *)
Definition keys_ok (cw : Crossword) (a : Assignment) : Prop :=
  NoDup a.*1 ∧ ∀ v, v ∈ a.*1 → v ∈ variables cw.

(** every assigned word has the length of its slot *)
Definition lens_ok (a : Assignment) : Prop :=
  ∀ v w, (v, w) ∈ a → String.length w = var_length v.

(** [self.domains] is an allocated object, and every allocated object has
    the slots of the puzzle as keys and is node-consistent *)
Definition store_ok (cw : Crossword) (st : Store) : Prop :=
  cur st < next st ∧
  ∀ l, l < next st → dom (objs st l) = variables cw ∧ node_consistent (objs st l).

(** what a call of the search that started in [st] leaves *)
Definition search_post (cw : Crossword) (st : Store)
    (out : option Assignment * Assignment * Store) : Prop :=
  store_ok cw out.2 ∧ next st ≤ next out.2 ∧
  ∀ r, out.1.1 = Some r → keys_ok cw r ∧ lens_ok r ∧ assignment_complete cw r = true.

(** What a call of the search that started in [st] does to the heap: it
    allocates, it leaves [self.domains] on the object it found there or on
    one it allocated, and it writes to no object that existed at the call
    other than the one [self.domains] referred to. *)
Definition heap_frame (st st' : Store) : Prop :=
  next st ≤ next st' ∧
  cur st' < next st' ∧
  (cur st' = cur st ∨ next st ≤ cur st') ∧
  ∀ l, l < next st → l ≠ cur st → objs st' l = objs st l.

(** ** letter_grid *)

(** the 2D array of [letter_grid]: rows of cells, a cell holding [None] or
    a letter *)
Abbreviation Grid := (list (list (option Ascii.ascii))).

(** [[[None for _ in range(width)] for _ in range(height)]]; the width and
    the height of the puzzle are attributes of the class [Crossword], given
    here as arguments *)
Definition blank_grid (height width : nat) : Grid :=
  replicate height (replicate width None).

(** the cell of the [k]-th letter of a slot *)
Definition cell_of (variable : Slot) (k : nat) : nat * nat :=
  (var_i variable + (if decide (var_direction variable = DOWN) then k else 0),
   var_j variable + (if decide (var_direction variable = ACROSS) then k else 0)).

(** [letters[i][j] = c], which raises when [i] or [j] is out of range *)
Definition grid_set (letters : Grid) (i j : nat) (c : Ascii.ascii) : option Grid :=
  row ← letters !! i;
  if decide (j < length row) then Some (<[i := <[j := Some c]> row]> letters) else None.

(** the body of the loop over [range(len(word))] *)
Definition write_letter (variable : Slot) (word : string) (letters : Grid) (k : nat)
    : option Grid :=
  c ← String.get k word;
  let '(i, j) := cell_of variable k in
  grid_set letters i j c.

Definition write_word (letters : Grid) (variable : Slot) (word : string) : option Grid :=
  foldlM (write_letter variable word) letters (seq 0 (String.length word)).

Definition letter_grid (height width : nat) (assignment : Assignment) : option Grid :=
  foldlM (λ letters '(variable, word), write_word letters variable word)
         (blank_grid height width) assignment.

(** [letters[i][j]] of a grid *)
Definition grid_get (letters : Grid) (i j : nat) : option (option Ascii.ascii) :=
  row ← letters !! i; row !! j.

(** the grid has [height] rows of [width] cells *)
Definition grid_dims (height width : nat) (letters : Grid) : Prop :=
  length letters = height ∧ ∀ i row, letters !! i = Some row → length row = width.

(** the [k]-th letter of the word of an entry of the assignment is [c] and
    goes to the cell [(i, j)] *)
Definition covers (assignment : Assignment) (i j : nat) (c : Ascii.ascii) : Prop :=
  ∃ variable word k, (variable, word) ∈ assignment ∧
    String.get k word = Some c ∧ cell_of variable k = (i, j).

(** * Node consistency *)

Lemma enforce_node_consistency_lookup (d : Domains) (v : Slot) :
  enforce_node_consistency d !! v
  = (λ ws : gset string, filter (λ w, String.length w = var_length v) ws) <$> d !! v.
Proof.
  unfold enforce_node_consistency. rewrite map_lookup_imap.
  destruct (d !! v) as [ws|]; simpl; [|done].
  f_equal. apply set_eq. intros w.
  rewrite elem_of_difference, !elem_of_filter.
  destruct (decide (String.length w = var_length v)); naive_solver.
Qed.

(** C7: after [enforce_node_consistency], every word left in a slot's domain
    has the slot's length, and the words that were removed from the domain
    are exactly the words of another length. *)
Theorem enforce_node_consistency_exact (d : Domains) (v : Slot) (ws : gset string) :
  d !! v = Some ws →
  ∃ ws' : gset string,
    enforce_node_consistency d !! v = Some ws' ∧
    (∀ w, w ∈ ws' → String.length w = var_length v) ∧
    ws' ⊆ ws ∧
    (∀ w, w ∈ ws → (w ∉ ws' ↔ String.length w ≠ var_length v)).
Proof.
  intros Hv. eexists. rewrite enforce_node_consistency_lookup, Hv. simpl.
  split; [reflexivity|]. split; [|split].
  - intros w Hw. by apply elem_of_filter in Hw as [? _].
  - intros w Hw. by apply elem_of_filter in Hw as [_ ?].
  - intros w Hw. rewrite elem_of_filter. naive_solver.
Qed.

Lemma enforce_node_consistency_exact_witness :
  ∃ ws' : gset string,
    enforce_node_consistency (init_domains (corner {["AB"; "CAT"]})) !! across = Some ws' ∧
    (∀ w, w ∈ ws' → String.length w = var_length across) ∧
    ws' ⊆ {["AB"; "CAT"]} ∧
    (∀ w, w ∈ ({["AB"; "CAT"]} : gset string) → (w ∉ ws' ↔ String.length w ≠ var_length across)).
Proof.
  apply (enforce_node_consistency_exact (init_domains (corner {["AB"; "CAT"]})) across).
  vm_compute. reflexivity.
Defined.

(** C8: [enforce_node_consistency] is idempotent. *)
Theorem enforce_node_consistency_idempotent (d : Domains) :
  enforce_node_consistency (enforce_node_consistency d) = enforce_node_consistency d.
Proof.
  apply map_eq. intros v. rewrite !enforce_node_consistency_lookup.
  destruct (d !! v) as [ws|]; simpl; [|done].
  f_equal. apply set_eq. intros w. rewrite !elem_of_filter. naive_solver.
Qed.

(** * revise *)

Section revise_facts.
Context (cw : Crossword).

Lemma check_overlap_true x y w w' :
  check_overlap cw x y w w' = Some true ↔ compatible cw x y w w'.
Proof.
  unfold check_overlap, compatible.
  destruct (overlaps cw x y) as [[i j]|]; [|done].
  destruct (String.get i w) as [cx|], (String.get j w') as [cy|]; simpl;
    try (split; [done | by intros (c & ? & ?)]).
  split.
  - intros [= Heq%bool_decide_eq_true]. subst. eauto.
  - intros (c & [= ->] & [= ->]). by rewrite bool_decide_eq_true_2.
Qed.

Lemma check_overlap_false x y w w' :
  check_overlap cw x y w w' = Some false → ¬ compatible cw x y w w'.
Proof. intros Hf Hc%check_overlap_true. congruence. Qed.

Lemma find_support_true x y w ys :
  find_support cw x y w ys = Some true →
  ∃ w', w' ∈ ys ∧ w' ≠ w ∧ compatible cw x y w w'.
Proof.
  induction ys as [|word_y ys IH]; simpl; [done|].
  destruct (decide (w = word_y)) as [->|Hne].
  - intros (w' & ? & ?)%IH. exists w'. by rewrite elem_of_cons; auto.
  - destruct (check_overlap cw x y w word_y) as [[]|] eqn:Hc; simpl; [| |done].
    + intros _. exists word_y. split; [by left|]. split; [done|].
      by apply check_overlap_true.
    + intros (w' & ? & ?)%IH. exists w'. by rewrite elem_of_cons; auto.
Qed.

Lemma find_support_false x y w ys :
  find_support cw x y w ys = Some false →
  ∀ w', w' ∈ ys → w' ≠ w → ¬ compatible cw x y w w'.
Proof.
  induction ys as [|word_y ys IH]; simpl; [by intros _ w' ?%elem_of_nil|].
  destruct (decide (w = word_y)) as [->|Hne].
  - intros Hf w' [->|Hin]%elem_of_cons Hw'; [done | by apply IH].
  - destruct (check_overlap cw x y w word_y) as [[]|] eqn:Hc; simpl; [done| |done].
    intros Hf w' [->|Hin]%elem_of_cons Hw'; [by apply check_overlap_false | by apply IH].
Qed.

Lemma revise_loop_spec x y d xs revised to_remove revised' to_remove' :
  revise_loop cw x y d xs revised to_remove = Some (revised', to_remove') →
  (∀ w, w ∈ xs → is_Some (verdict cw x y d w)) ∧
  (∀ w, w ∈ to_remove' ↔ w ∈ to_remove ∨ (w ∈ xs ∧ verdict cw x y d w = Some false)) ∧
  (revised' = true ↔ revised = true ∨ ∃ w, w ∈ xs ∧ verdict cw x y d w = Some false).
Proof.
  revert revised to_remove.
  induction xs as [|word_x xs IH]; intros revised to_remove; simpl.
  - intros [= <- <-]. split; [by intros w ?%elem_of_nil|]. split.
    + intros w. split; [by left|]. by intros [?|[?%elem_of_nil _]].
    + split; [by left|]. by intros [?|(w & ?%elem_of_nil & _)].
  - destruct (d !! y) as [dy|] eqn:Hy; simpl; [|done].
    destruct (find_support cw x y word_x (elements dy)) as [valid|] eqn:Hs; simpl; [|done].
    assert (Hv : verdict cw x y d word_x = Some valid) by (unfold verdict; by rewrite Hy).
    destruct valid; intros (Hall & Hrem & Hrev)%IH.
    + split; [|split].
      * intros w [->|?]%elem_of_cons; [by rewrite Hv | by apply Hall].
      * intros w. rewrite Hrem. split.
        -- intros [?|[? ?]]; [by left|]. right. split; [by right|done].
        -- intros [?|[[->|?]%elem_of_cons ?]]; [by left|congruence|by right].
      * rewrite Hrev. split.
        -- intros [?|(w & ? & ?)]; [by left|]. right. exists w. split; [by right|done].
        -- intros [?|(w & [->|?]%elem_of_cons & ?)]; [by left|congruence|]. right. by exists w.
    + split; [|split].
      * intros w [->|?]%elem_of_cons; [by rewrite Hv | by apply Hall].
      * intros w. rewrite Hrem, elem_of_union, elem_of_singleton. split.
        -- intros [[->|?]|[? ?]]; [|by left|].
           ++ right. split; [by left|done].
           ++ right. split; [by right|done].
        -- intros [?|[[->|?]%elem_of_cons ?]]; [left; by right|left; by left|by right].
      * rewrite Hrev. split; [|by left].
        intros _. right. exists word_x. split; [by left|done].
Qed.

(** What [revise] leaves in the store, in terms of the inner loop. *)
Lemma revise_inv x y d revised d' :
  revise cw x y d = Some (revised, d') →
  ∃ dx to_remove : gset string,
    d !! x = Some dx ∧ d' = <[x := dx ∖ to_remove]> d ∧
    (∀ w, w ∈ dx → is_Some (verdict cw x y d w)) ∧
    (∀ w, w ∈ to_remove ↔ w ∈ dx ∧ verdict cw x y d w = Some false) ∧
    (revised = true ↔ ∃ w, w ∈ dx ∧ verdict cw x y d w = Some false).
Proof.
  unfold revise. destruct (d !! x) as [dx|] eqn:Hx; simpl; [|done].
  destruct (revise_loop cw x y d (elements dx) false ∅) as [[rev rem]|] eqn:Hl;
    simpl; [|done].
  intros [= <- <-]. apply revise_loop_spec in Hl as (Hall & Hrem & Hrev).
  exists dx, rem. split; [done|]. split; [done|]. split; [|split].
  - intros w Hw. apply Hall. by apply elem_of_elements.
  - intros w. rewrite Hrem, elem_of_elements. set_solver.
  - rewrite Hrev. setoid_rewrite elem_of_elements. naive_solver.
Qed.

Lemma verdict_false_iff x y d w v :
  verdict cw x y d w = Some v →
  (v = false ↔
   ¬ ∃ (dy : gset string) w',
       d !! y = Some dy ∧ w' ∈ dy ∧ w' ≠ w ∧ compatible cw x y w w').
Proof.
  unfold verdict. destruct (d !! y) as [dy|] eqn:Hy; simpl; [|done].
  intros Hs. destruct v.
  - split; [done|]. intros Hno. exfalso. apply Hno.
    apply find_support_true in Hs as (w' & Hin%elem_of_elements & ? & ?).
    by exists dy, w'.
  - split; [|done]. intros _ (dy' & w' & [= <-] & Hin & Hne & Hc).
    by eapply find_support_false; [exact Hs|apply elem_of_elements| |].
Qed.

(** C5 (as amended): for all slots [x] and [y], the same one included,
    [revise x y] removes from [domain(x)] exactly the words that have no
    compatible word other than themselves in [domain(y)], it leaves every
    domain other than [domain(x)] as it was, hence [domain(y)] whenever [y]
    is not [x], and it returns [True] exactly when it removed a word. *)
Theorem revise_exact (x y : Slot) (d : Domains) (revised : bool) (d' : Domains) :
  revise cw x y d = Some (revised, d') → revise_effect cw x y d revised d'.
Proof.
  intros Hr.
  apply revise_inv in Hr as (dx & rem & Hx & -> & Hall & Hrem & Hrev).
  exists dx, (dx ∖ rem). split; [done|].
  split; [by rewrite lookup_insert_eq|]. split; [set_solver|].
  split; [|split].
  - intros w Hw. destruct (Hall w Hw) as [v Hv].
    rewrite <- (verdict_false_iff _ _ _ _ _ Hv).
    rewrite elem_of_difference, Hrem. split.
    + intros Hno. destruct v; [|done]. exfalso. apply Hno. split; [done|].
      intros [_ ?]. congruence.
    + intros -> [_ Hn]. by apply Hn.
  - intros z Hz. by rewrite lookup_insert_ne.
  - rewrite Hrev. split.
    + intros (w & Hw & Hv). exists w. split; [done|].
      rewrite elem_of_difference, Hrem. naive_solver.
    + intros (w & Hw & Hn). exists w. split; [done|].
      rewrite elem_of_difference, Hrem in Hn.
      destruct (Hall w Hw) as [[] Hv]; [|done].
      exfalso. apply Hn. split; [done|]. intros [_ ?]. congruence.
Qed.

(** [revise] only removes words, and only from [domain(x)]. *)
Lemma revise_shrinks x y d revised d' :
  revise cw x y d = Some (revised, d') → shrinks d d'.
Proof.
  intros (dx & rem & Hx & -> & _)%revise_inv. split.
  - rewrite dom_insert_L. apply elem_of_dom_2 in Hx. set_solver.
  - intros v ws'. destruct (decide (x = v)) as [<-|Hne].
    + rewrite lookup_insert_eq. intros [= <-]. exists dx. split; [done|set_solver].
    + rewrite lookup_insert_ne by done. eauto.
Qed.
End revise_facts.

(** * AC-3 *)

Section ac3_facts.
Context (cw : Crossword).

Lemma shrinks_refl d : shrinks d d.
Proof. split; [done|]. intros v ws' ?. by exists ws'. Qed.

Lemma shrinks_trans d1 d2 d3 : shrinks d1 d2 → shrinks d2 d3 → shrinks d1 d3.
Proof.
  intros [Hd12 H12] [Hd23 H23]. split; [congruence|].
  intros v ws3 (ws2 & (ws1 & ? & ?)%H12 & ?)%H23.
  exists ws1. split; [done|]. set_solver.
Qed.

Lemma weight_insert (d : Domains) x (dx dx' : gset string) :
  d !! x = Some dx →
  weight cw (<[x := dx']> d) + size dx * S (size (neighbors cw x))
  = weight cw d + size dx' * S (size (neighbors cw x)).
Proof.
  intros Hx. unfold weight.
  rewrite (map_fold_delete_L _ _ x dx d); [|intros; lia|done].
  rewrite <- (insert_delete_eq d x dx').
  rewrite map_fold_insert_L; [lia|intros; lia|apply lookup_delete_eq].
Qed.

Lemma revise_false_id x y d d' :
  revise cw x y d = Some (false, d') → d' = d.
Proof.
  intros (dx & rem & Hx & -> & _ & Hrem & Hrev)%revise_inv.
  assert (rem = ∅) as ->.
  { apply set_eq. intros w. rewrite Hrem. split; [|set_solver].
    intros [Hw Hv]. assert (false = true); [|done]. apply Hrev. eauto. }
  rewrite difference_empty_L. by apply insert_id.
Qed.

Lemma revise_true_weight x y d d' :
  revise cw x y d = Some (true, d') →
  weight cw d' + S (size (neighbors cw x)) ≤ weight cw d.
Proof.
  intros (dx & rem & Hx & -> & _ & Hrem & Hrev)%revise_inv.
  destruct Hrev as [Hrev _]. destruct (Hrev eq_refl) as (w & Hw & Hv).
  assert (size (dx ∖ rem) < size dx).
  { apply subset_size. split; [set_solver|].
    intros Hsub. specialize (Hsub w Hw).
    apply elem_of_difference in Hsub as [_ Hn]. apply Hn, Hrem. done. }
  pose proof (weight_insert d x dx (dx ∖ rem) Hx). nia.
Qed.

Lemma requeue_length x y : length (requeue cw x y) ≤ size (neighbors cw x).
Proof. unfold requeue. rewrite length_fmap. apply length_filter. Qed.

(** With the fuel [ac3] supplies, the loop is the FIFO process of the
    specification: it never stops for lack of fuel. *)
Lemma ac3_loop_spec fuel queue d :
  length queue + weight cw d < fuel →
  ac3_spec cw queue d (ac3_loop cw fuel queue d).
Proof.
  revert queue d. induction fuel as [|fuel IH]; intros queue d Hfuel; [lia|].
  destruct queue as [|[x y] queue]; simpl; [constructor|].
  destruct (revise cw x y d) as [[[] d']|] eqn:Hr; simpl.
  - pose proof (revise_true_weight _ _ _ _ Hr) as Hw.
    pose proof (revise_shrinks _ _ _ _ _ _ Hr) as [Hdom _].
    destruct (d' !! x) as [dx|] eqn:Hx; simpl.
    + destruct (decide (dx = ∅)) as [->|Hne].
      * by eapply ac3_spec_emptied.
      * eapply ac3_spec_requeue; [done..|].
        apply IH. rewrite length_app. pose proof (requeue_length x y).
        simpl in Hfuel. lia.
    + exfalso. apply revise_inv in Hr as (dx & rem & _ & -> & _).
      by rewrite lookup_insert_eq in Hx.
  - eapply ac3_spec_unchanged; [done|].
    apply revise_false_id in Hr as Heq. subst d'.
    apply IH. simpl in Hfuel. lia.
  - by constructor.
Qed.

Lemma ac3_spec_deterministic queue d out1 out2 :
  ac3_spec cw queue d out1 → ac3_spec cw queue d out2 → out1 = out2.
Proof.
  intros H1. revert out2.
  induction H1 as [d|x y queue d Hr|x y queue d d' out Hr _ IH
                   |x y queue d d' Hr Hx|x y queue d d' dx out Hr Hx Hne _ IH];
    intros out2 H2; inversion H2; subst;
    repeat match goal with
    | Ha : revise cw ?x ?y ?d = _, Hb : revise cw ?x ?y ?d = _ |- _ =>
        rewrite Ha in Hb; simplify_eq
    end;
    try done; try congruence; try (by apply IH).
Qed.

Lemma ac3_queue_refines queue d out :
  ac3_queue cw queue d = out ↔ ac3_spec cw queue d out.
Proof.
  unfold ac3_queue, ac3_fuel. split.
  - intros <-. apply ac3_loop_spec. lia.
  - intros Hspec. eapply ac3_spec_deterministic; [|exact Hspec].
    apply ac3_loop_spec. lia.
Qed.

(** C6: [ac3] is the FIFO worklist process of the specification.  An arc is
    taken from the front of the queue; when [revise] removed a word, the
    call fails at once if [domain(x)] is now empty and otherwise appends the
    arc [(z, x)] for every neighbor [z] of [x] other than [y]; the result is
    [True] exactly when the queue runs empty and [False] exactly when a
    revision emptied a domain. *)
Theorem ac3_fifo (arcs : option (list Arc)) (d : Domains) (out : option (bool * Domains)) :
  ac3 cw arcs d = out
  ↔ ac3_spec cw (match arcs with None => elements (all_arcs cw) | Some l => l end) d out.
Proof. unfold ac3. apply ac3_queue_refines. Qed.

Lemma ac3_spec_shrinks queue d b d' :
  ac3_spec cw queue d (Some (b, d')) → shrinks d d'.
Proof.
  intros H. remember (Some (b, d')) as out eqn:Hout.
  induction H as [d|x y queue d Hr|x y queue d d1 out Hr _ IH
                  |x y queue d d1 Hr Hx|x y queue d d1 dx out Hr Hx Hne _ IH].
  - injection Hout as <- <-. apply shrinks_refl.
  - done.
  - eapply shrinks_trans; [by eapply revise_shrinks|by apply IH].
  - injection Hout as <- <-. by eapply revise_shrinks.
  - eapply shrinks_trans; [by eapply revise_shrinks|by apply IH].
Qed.

Lemma ac3_shrinks arcs d b d' :
  ac3 cw arcs d = Some (b, d') → shrinks d d'.
Proof. unfold ac3. intros H%ac3_queue_refines. by eapply ac3_spec_shrinks. Qed.

(** A failed pass leaves the emptied domain in the store. *)
Lemma ac3_spec_failed queue d d' :
  ac3_spec cw queue d (Some (false, d')) → ∃ x, d' !! x = Some ∅.
Proof.
  intros H. remember (Some (false, d')) as out eqn:Hout.
  induction H as [d|x y queue d Hr|x y queue d d1 out Hr _ IH
                  |x y queue d d1 Hr Hx|x y queue d d1 dx out Hr Hx Hne _ IH];
    try done; auto.
  injection Hout as <-. eauto.
Qed.
End ac3_facts.

(** C9: node consistency, [revise] and [ac3] only remove words from the
    domains: afterwards every slot's domain is a subset of what it was, and
    the store has the same slots as keys. *)
Theorem domains_only_shrink (cw : Crossword) :
  (∀ d, shrinks d (enforce_node_consistency d)) ∧
  (∀ x y d revised d', revise cw x y d = Some (revised, d') → shrinks d d') ∧
  (∀ arcs d ok d', ac3 cw arcs d = Some (ok, d') → shrinks d d').
Proof.
  split; [|split].
  - intros d. split.
    + apply set_eq. intros v. rewrite !elem_of_dom, enforce_node_consistency_lookup.
      by rewrite fmap_is_Some.
    + intros v ws'. rewrite enforce_node_consistency_lookup.
      destruct (d !! v) as [ws|]; simpl; [|done].
      intros [= <-]. exists ws. split; [done|]. intros w. rewrite elem_of_filter. tauto.
  - intros x y d revised d'. apply revise_shrinks.
  - intros arcs d ok d'. apply ac3_shrinks.
Qed.

Lemma domains_only_shrink_witness :
  shrinks (init_domains (corner {["AB"; "CAT"]}))
          (enforce_node_consistency (init_domains (corner {["AB"; "CAT"]}))) ∧
  shrinks (init_domains (corner {["AB"; "AC"; "CD"]}))
          (<[across := {["AB"; "AC"]}]> (init_domains (corner {["AB"; "AC"; "CD"]}))) ∧
  shrinks (init_domains (corner {["AB"; "AC"; "CD"]}))
          (<[down := {["AB"; "AC"]}]>
             (<[across := {["AB"; "AC"]}]> (init_domains (corner {["AB"; "AC"; "CD"]})))).
Proof.
  destruct (domains_only_shrink (corner {["AB"; "AC"; "CD"]})) as (_ & Hrevise & Hac3).
  split; [apply (domains_only_shrink (corner {["AB"; "CAT"]}))|]. split.
  - apply (Hrevise across down _ true). vm_compute. reflexivity.
  - apply (Hac3 None _ true). vm_compute. reflexivity.
Defined.

Lemma revise_exact_witness :
  revise_effect (corner {["AB"; "AC"; "CD"]}) across down
                (init_domains (corner {["AB"; "AC"; "CD"]}))
                true (<[across := {["AB"; "AC"]}]> (init_domains (corner {["AB"; "AC"; "CD"]}))).
Proof. apply revise_exact. vm_compute. reflexivity. Defined.

(** C5 as stated, with "it leaves domain(y) unchanged" for all slots,
    fails when the two slots are the same one: [revise x x] skips the word
    identical to the one it examines without looking up the overlap,
    removes the only word of [domain(x)], and [domain(x)] is [domain(y)]. *)
Lemma revise_same_slot_changes_domain_y :
  ¬ revise_claim two_rows (row 0 3) (row 0 3) (init_domains two_rows).
Proof.
  intros Hclaim.
  destruct (Hclaim true (<[row 0 3 := ∅]> (init_domains two_rows)))
    as (dx & dx' & Hx & Hx' & _ & _ & Hy & [Hrev _]).
  { vm_compute. reflexivity. }
  destruct (Hrev eq_refl) as (w & Hw & Hn). congruence.
Qed.

(** * Dictionaries and sorting *)

Section dict_facts.
Context {K V : Type} `{EqDecision K}.
Implicit Types (d : list (K * V)) (k : K) (v : V).

Lemma dict_set_fresh d k v : dict_get d k = None → dict_set d k v = d ++ [(k, v)].
Proof.
  induction d as [|[k' v'] d IH]; simpl; [done|].
  destruct (decide (k = k')); [done|]. intros ?. by rewrite IH.
Qed.

Lemma dict_del_fresh d k v : dict_get d k = None → dict_del (d ++ [(k, v)]) k = Some d.
Proof.
  induction d as [|[k' v'] d IH]; simpl.
  - by rewrite decide_True.
  - destruct (decide (k = k')); [done|]. intros ?. by rewrite IH.
Qed.

Lemma dict_get_set d k v k' :
  dict_get (dict_set d k v) k' = if decide (k' = k) then Some v else dict_get d k'.
Proof.
  induction d as [|[k0 v0] d IH]; simpl.
  - by destruct (decide (k' = k)).
  - destruct (decide (k = k0)) as [->|]; simpl.
    + by destruct (decide (k' = k0)).
    + rewrite IH. destruct (decide (k' = k0)), (decide (k' = k)); congruence.
Qed.
End dict_facts.

Lemma head_map {A B : Type} (f : A → B) (l : list A) : head (f <$> l) = f <$> head l.
Proof. by destruct l. Qed.

Section sorting_facts.
Context {A : Type} (le : A → A → bool).
Hypothesis le_total : ∀ x y, le x y = true ∨ le y x = true.
Hypothesis le_trans : ∀ x y z, le x y = true → le y z = true → le x z = true.

Lemma insert_by_elem_of x l y : y ∈ insert_by le x l ↔ y = x ∨ y ∈ l.
Proof.
  induction l as [|z l IH]; simpl.
  - rewrite list_elem_of_singleton, elem_of_nil. tauto.
  - destruct (le x z); rewrite !elem_of_cons; [tauto|]. rewrite IH. tauto.
Qed.

Lemma stable_sort_elem_of l y : y ∈ stable_sort le l ↔ y ∈ l.
Proof.
  induction l as [|x l IH]; simpl; [done|].
  rewrite insert_by_elem_of, elem_of_cons, IH. tauto.
Qed.

Lemma stable_sort_nil_inv l : stable_sort le l = [] → l = [].
Proof.
  destruct l as [|x l]; [done|]. intros Hs.
  assert (Hx : x ∈ stable_sort le (x :: l)) by (apply stable_sort_elem_of; left).
  rewrite Hs in Hx. by apply elem_of_nil in Hx.
Qed.

(** the first element of the sorted list is a least one *)
Lemma stable_sort_head_least l m :
  head (stable_sort le l) = Some m → ∀ x, x ∈ l → le m x = true.
Proof.
  revert m. induction l as [|a l IH]; intros m; simpl; [done|].
  destruct (stable_sort le l) as [|h t] eqn:Hs; simpl.
  - apply stable_sort_nil_inv in Hs as ->. intros [= <-] x ?%list_elem_of_singleton.
    subst. by destruct (le_total a a).
  - destruct (le a h) eqn:Hah; simpl; intros [= <-] x [->|Hx]%elem_of_cons.
    + by destruct (le_total a a).
    + eapply le_trans; [exact Hah|]. by apply IH.
    + destruct (le_total a h); congruence.
    + by apply IH.
Qed.
End sorting_facts.

(** * The backtracking search *)

Section backtrack_facts.
Context (cw : Crossword).

Lemma key_le_total k1 k2 : key_le k1 k2 = true ∨ key_le k2 k1 = true.
Proof.
  unfold key_le. destruct k1 as [n1 z1], k2 as [n2 z2]; simpl.
  destruct (Nat.ltb_spec n1 n2), (Nat.ltb_spec n2 n1); simpl; auto; try lia.
  assert (n1 = n2) as -> by lia. rewrite Nat.eqb_refl. simpl.
  destruct (Z.leb_spec z1 z2), (Z.leb_spec z2 z1); auto; lia.
Qed.

Lemma key_le_trans k1 k2 k3 :
  key_le k1 k2 = true → key_le k2 k3 = true → key_le k1 k3 = true.
Proof.
  unfold key_le. destruct k1 as [n1 z1], k2 as [n2 z2], k3 as [n3 z3]; simpl.
  rewrite !orb_true_iff, !andb_true_iff, !Nat.ltb_lt, !Nat.eqb_eq, !Z.leb_le. lia.
Qed.

Lemma key_le_fst k1 k2 : key_le k1 k2 = true → k1.1 ≤ k2.1.
Proof.
  unfold key_le. rewrite !orb_true_iff, !andb_true_iff, !Nat.ltb_lt, !Nat.eqb_eq. lia.
Qed.

(** The selected slot is unassigned, and no unassigned slot has fewer words
    left. *)
Lemma select_unassigned_variable_spec a (d : Domains) var :
  select_unassigned_variable cw a d = Some var →
  var ∈ unassigned cw a ∧
  ∃ dv : gset string, d !! var = Some dv ∧
    ∀ x (dx : gset string), x ∈ unassigned cw a → d !! x = Some dx → size dv ≤ size dx.
Proof.
  unfold select_unassigned_variable.
  destruct (mapM (sort_key cw d) (unassigned cw a)) as [keyed|] eqn:Hm; simpl; [|done].
  apply mapM_Some in Hm.
  set (le := λ p q : nat * Z * Slot, key_le p.1 q.1).
  rewrite head_map.
  destruct (head (stable_sort le keyed)) as [m|] eqn:Hm'; simpl; [|done].
  intros [= Hvar].
  assert (Hleast : ∀ p, p ∈ keyed → le m p = true).
  { apply (stable_sort_head_least le); [intros; apply key_le_total| |done].
    intros ???; apply key_le_trans. }
  assert (Hin : m ∈ keyed).
  { apply (stable_sort_elem_of le). by eapply head_Some_elem_of. }
  assert (Hkeyed : ∀ p, p ∈ keyed → p.2 ∈ unassigned cw a ∧
            ∃ dx : gset string, d !! p.2 = Some dx ∧ p.1.1 = size dx).
  { intros p (i & Hi)%list_elem_of_lookup.
    destruct (Forall2_lookup_r _ _ _ _ _ Hm Hi) as (x & Hx & Hk).
    unfold sort_key in Hk. destruct (d !! x) as [dx|] eqn:Hdx; simpl in Hk; [|done].
    injection Hk as <-. simpl. split; [by eapply list_elem_of_lookup_2|eauto]. }
  destruct (Hkeyed m Hin) as (Hun & dv & Hdv & Hsize). rewrite Hvar in *.
  split; [done|]. exists dv. split; [done|].
  intros x dx (i & Hi)%list_elem_of_lookup Hdx.
  destruct (Forall2_lookup_l _ _ _ _ _ Hm Hi) as (p & Hp & Hk).
  unfold sort_key in Hk. rewrite Hdx in Hk. simpl in Hk. injection Hk as <-.
  apply list_elem_of_lookup_2, Hleast in Hp. unfold le in Hp.
  apply key_le_fst in Hp. simpl in Hp. lia.
Qed.

Lemma select_unassigned_variable_total a (d : Domains) :
  unassigned cw a ≠ [] →
  (∀ x, x ∈ unassigned cw a → is_Some (d !! x)) →
  is_Some (select_unassigned_variable cw a d).
Proof.
  intros Hne Hkeys. unfold select_unassigned_variable.
  destruct (mapM_is_Some_2 (sort_key cw d) (unassigned cw a)) as [keyed Hm].
  { apply Forall_forall. intros x [dx Hdx]%Hkeys. unfold sort_key, compose.
    by rewrite Hdx. }
  rewrite Hm. simpl. apply mapM_Some, Forall2_length in Hm.
  set (le := λ p q : nat * Z * Slot, key_le p.1 q.1).
  destruct (stable_sort le keyed) as [|h t] eqn:Hs; simpl; [|by eauto].
  apply stable_sort_nil_inv in Hs as ->.
  destruct (unassigned cw a); [done|simpl in Hm; lia].
Qed.

Lemma unassigned_elem_of a var : var ∈ unassigned cw a ↔ dict_get a var = None ∧ var ∈ variables cw.
Proof. unfold unassigned. by rewrite list_elem_of_filter, elem_of_elements. Qed.

Lemma try_values_post (rec : Assignment → Store → Outcome) var prev values a st out :
  (∀ a1 st1 out1, rec a1 st1 = Some out1 → bt_post a1 out1) →
  dict_get a var = None →
  try_values cw rec var prev values a st = Some out →
  bt_post a out.
Proof.
  intros Hrec Hvar. revert st.
  induction values as [|value values IH]; intros st; simpl.
  - by intros [= <-].
  - destruct (consistent cw a) as [[]|]; simpl; [|by apply IH|done].
    destruct (ac3 cw _ _) as [[ok d3]|]; simpl; [|done].
    destruct (rec _ _) as [[[result a4] st4]|] eqn:Hr; simpl; [|done].
    apply Hrec in Hr. unfold bt_post in Hr. simpl in Hr.
    rewrite (dict_set_fresh _ _ _ Hvar) in Hr.
    destruct (truthy result) eqn:Ht.
    + intros [= <-]. unfold bt_post. simpl.
      destruct result as [r|]; [|done]. destruct Hr as (-> & ext & ->).
      split; [done|]. exists ((var, value) :: ext). by rewrite <- app_assoc.
    + assert (a4 = a ++ [(var, value)]) as ->.
      { destruct result as [r|]; [|done]. destruct Hr as (-> & ext & ->).
        simpl in Ht. by destruct a. }
      rewrite (dict_del_fresh _ _ _ Hvar). simpl. apply IH.
Qed.

Lemma backtrack_rec_post fuel a st out :
  backtrack_rec cw fuel a st = Some out → bt_post a out.
Proof.
  revert a st out. induction fuel as [|fuel IH]; intros a st out; simpl; [done|].
  destruct (assignment_complete cw a).
  - intros [= <-]. unfold bt_post. simpl. split; [done|]. exists []. by rewrite app_nil_r.
  - destruct (select_unassigned_variable cw a _) as [var|] eqn:Hsel; simpl; [|done].
    apply select_unassigned_variable_spec in Hsel as [[Hvar _]%unassigned_elem_of _].
    destruct (order_domain_values cw var a _) as [values|]; simpl; [|done].
    by apply try_values_post.
Qed.

Lemma try_values_ext (rec1 rec2 : Assignment → Store → Outcome) var prev values a st :
  (∀ a1 st1 out1, rec1 a1 st1 = Some out1 → bt_post a1 out1) →
  (∀ value st1, rec1 (dict_set a var value) st1 = rec2 (dict_set a var value) st1) →
  dict_get a var = None →
  try_values cw rec1 var prev values a st = try_values cw rec2 var prev values a st.
Proof.
  intros Hpost Hrec Hvar. revert st.
  induction values as [|value values IH]; intros st; simpl; [done|].
  destruct (consistent cw a) as [[]|]; simpl; [|by apply IH|done].
  destruct (ac3 cw _ _) as [[ok d3]|]; simpl; [|done].
  rewrite <- Hrec.
  destruct (rec1 _ _) as [[[result a4] st4]|] eqn:Hr; simpl; [|done].
  destruct (truthy result) eqn:Ht; [done|].
  apply Hpost in Hr. unfold bt_post in Hr. simpl in Hr.
  rewrite (dict_set_fresh _ _ _ Hvar) in Hr.
  assert (a4 = a ++ [(var, value)])%list as ->.
  { destruct result as [r|]; [|done]. destruct Hr as (-> & ext & ->).
    simpl in Ht. by destruct a. }
  rewrite (dict_del_fresh _ _ _ Hvar). simpl. apply IH.
Qed.

(** One iteration of the loop that fails hands its dictionary and store to
    the next iteration. *)
Lemma try_values_failed_branch (rec : Assignment → Store → Outcome)
    var prev value values a st a' st' :
  try_values cw rec var prev [value] a st = Some (None, a', st') →
  try_values cw rec var prev (value :: values) a st
  = try_values cw rec var prev values a' st'.
Proof.
  simpl. destruct (consistent cw a) as [[]|]; simpl; [|by intros [= <- <-]|done].
  destruct (ac3 cw _ _) as [[ok d3]|]; simpl; [|done].
  destruct (rec _ _) as [[[result a4] st4]|]; simpl; [|done].
  destruct (truthy result) eqn:Ht.
  - intros [= -> _ _]. done.
  - destruct (dict_del a4 var) as [a5|]; simpl; [|done]. by intros [= <- <-].
Qed.

Lemma unassigned_dict_set a var value :
  var ∈ unassigned cw a →
  length (unassigned cw (dict_set a var value)) < length (unassigned cw a).
Proof.
  intros Hvar. unfold unassigned.
  rewrite (list_filter_iff _ (λ x, x ≠ var ∧ dict_get a x = None)).
  - rewrite <- list_filter_filter. apply (length_filter_lt _ _ var); [done|]. by intros ?.
  - intros x. rewrite dict_get_set. destruct (decide (x = var)); naive_solver.
Qed.

(** The result of the search does not depend on the fuel, once there is
    more of it than there are unassigned slots: [backtrack] never stops for
    lack of fuel. *)
Lemma backtrack_rec_fuel n m a st :
  length (unassigned cw a) < n → length (unassigned cw a) < m →
  backtrack_rec cw n a st = backtrack_rec cw m a st.
Proof.
  revert m a st. induction n as [|n IH]; intros m a st Hn Hm; [lia|].
  destruct m as [|m]; [lia|]. simpl.
  destruct (assignment_complete cw a); [done|].
  destruct (select_unassigned_variable cw a _) as [var|] eqn:Hsel; simpl; [|done].
  apply select_unassigned_variable_spec in Hsel as [Hun _].
  destruct (order_domain_values cw var a _) as [values|]; simpl; [|done].
  apply try_values_ext.
  - intros a1 st1 out1. apply backtrack_rec_post.
  - intros value st1. pose proof (unassigned_dict_set a var value Hun).
    apply IH; lia.
  - by apply unassigned_elem_of in Hun as [? _].
Qed.

(** C10: when [backtrack] returns [None], the dictionary [assignment] holds
    the entries it held at the call. *)
Theorem backtrack_failure_restores_assignment (a a' : Assignment) (st st' : Store) :
  backtrack cw a st = Some (None, a', st') → a' = a.
Proof. unfold backtrack. intros H%backtrack_rec_post. exact H. Qed.

Lemma dom_init_domains : dom (init_domains cw) = variables cw.
Proof.
  apply set_eq. intros v. rewrite elem_of_dom. unfold init_domains, is_Some.
  setoid_rewrite lookup_set_to_map; [|by intros ??? ? [=]].
  split; [by intros (ws & y & ? & [= -> _])|]. intros ?. by exists (words cw), v.
Qed.

Lemma dom_enforce_node_consistency (d : Domains) : dom (enforce_node_consistency d) = dom d.
Proof.
  apply set_eq. intros v. rewrite !elem_of_dom, enforce_node_consistency_lookup.
  by rewrite fmap_is_Some.
Qed.

Lemma order_domain_values_empty var a (d : Domains) :
  d !! var = Some ∅ → order_domain_values cw var a d = Some [].
Proof. intros Hv. unfold order_domain_values. rewrite Hv. simpl. by rewrite elements_empty. Qed.

Lemma deepcopy_current st : current (deepcopy st).2 = current st.
Proof. unfold deepcopy, current. simpl. by destruct (decide (cur st = next st)). Qed.

(** A store with an empty domain among the slots of the puzzle makes the
    first call of the search fail at once: the slot it selects has nothing
    to try. *)
Lemma backtrack_empty_domain st x :
  x ∈ variables cw → dom (current st) = variables cw → current st !! x = Some ∅ →
  ∃ st', backtrack cw [] st = Some (None, [], st') ∧ trace st' = trace st ++ [Enter []].
Proof.
  intros Hx Hdom Hempty. unfold backtrack.
  set (fuel := length _). cbn [backtrack_rec].
  assert (assignment_complete cw [] = false) as ->.
  { unfold assignment_complete. apply bool_decide_eq_false. simpl.
    intros Hsize. apply size_empty_inv in Hsize. set_solver. }
  change (current (log (Enter []) st)) with (current st).
  destruct (select_unassigned_variable_total [] (current st)) as [var Hsel].
  { intros Hnil. assert (Hin : x ∈ unassigned cw []) by by apply unassigned_elem_of.
    rewrite Hnil in Hin. by apply elem_of_nil in Hin. }
  { intros v [_ Hv]%unassigned_elem_of. apply elem_of_dom. by rewrite Hdom. }
  rewrite Hsel. cbn [mbind option_bind].
  apply select_unassigned_variable_spec in Hsel as (_ & dv & Hdv & Hleast).
  assert (dv = ∅) as ->.
  { apply leibniz_equiv, size_empty_inv.
    specialize (Hleast x ∅ (proj2 (unassigned_elem_of [] x) (conj eq_refl Hx)) Hempty).
    rewrite size_empty in Hleast. lia. }
  pose proof (deepcopy_current (log (Enter []) st)) as Hcur.
  destruct (deepcopy (log (Enter []) st)) as [prev st1] eqn:Hdc.
  assert (trace st1 = trace st ++ [Enter []]) as Htrace.
  { unfold deepcopy in Hdc. by injection Hdc as _ <-. }
  simpl in Hcur. change (current (log (Enter []) st)) with (current st) in Hcur.
  rewrite Hcur, (order_domain_values_empty _ _ _ Hdv). simpl. eauto.
Qed.

(** C2 (as amended): when the global AC-3 pass of [solve] empties a domain,
    [solve] still calls [backtrack], once; that call commits no value and
    returns [None], which is what [solve] returns. *)
Theorem solve_after_failed_ac3 (d2 : Domains) :
  ac3 cw None (enforce_node_consistency (init_domains cw)) = Some (false, d2) →
  ∃ st, solve cw = Some (None, st) ∧ trace st = [Enter []].
Proof.
  intros Hac3. unfold solve.
  change (current (init_store cw)) with (init_domains cw).
  change (current (set_current (init_store cw) (enforce_node_consistency (init_domains cw))))
    with (enforce_node_consistency (init_domains cw)).
  rewrite Hac3. simpl.
  pose proof (ac3_shrinks _ _ _ _ _ Hac3) as [Hdom _].
  rewrite dom_enforce_node_consistency, dom_init_domains in Hdom.
  unfold ac3 in Hac3. apply ac3_queue_refines, ac3_spec_failed in Hac3 as [x Hx].
  set (st2 := set_current _ d2).
  destruct (backtrack_empty_domain st2 x) as (st' & -> & Htrace); try done.
  - rewrite <- Hdom. by eapply elem_of_dom_2.
  - simpl. eauto.
Qed.
End backtrack_facts.

Lemma solve_after_failed_ac3_witness :
  ∃ st, solve (corner {["AB"]}) = Some (None, st) ∧ trace st = [Enter []].
Proof.
  apply (solve_after_failed_ac3 (corner {["AB"]}) {[across := {["AB"]}; down := ∅]}).
  vm_compute. reflexivity.
Defined.

(** C2 as stated fails on a row and a column that share their first cell,
    with the single word AB: the global pass empties a domain, and the
    search is entered all the same. *)
Lemma solve_enters_backtracking : ¬ fails_fast (corner {["AB"]}).
Proof.
  intros Hclaim.
  destruct (Hclaim {[across := {["AB"]}; down := ∅]}) as (st & Hsolve & Hno).
  { vm_compute. reflexivity. }
  assert (Htrace : (λ out, trace out.2) <$> solve (corner {["AB"]}) = Some [Enter []])
    by (vm_compute; reflexivity).
  rewrite Hsolve in Htrace. injection Htrace as Htrace.
  apply (Hno []). rewrite Htrace. by left.
Qed.

Lemma backtrack_failure_restores_assignment_witness :
  ∃ a' st', backtrack four_rows [] (init_store four_rows) = Some (None, a', st') ∧ a' = [].
Proof.
  assert (Hres : (λ out, out.1.1) <$> backtrack four_rows [] (init_store four_rows) = Some None)
    by (vm_compute; reflexivity).
  destruct (backtrack four_rows [] (init_store four_rows)) as [[[r a'] st']|] eqn:Hbt;
    [|discriminate].
  injection Hres as ->. exists a', st'. split; [reflexivity|].
  apply (backtrack_failure_restores_assignment four_rows [] a' (init_store four_rows) st').
  exact Hbt.
Defined.

(** * The search on concrete puzzles *)

Lemma solve_search_store (cw : Crossword) :
  solve cw = st2 ← search_store cw; '(result, _, st3) ← backtrack cw [] st2; Some (result, st3).
Proof.
  unfold solve, search_store.
  by destruct (ac3 cw None _) as [[ok d2]|].
Qed.

(** C1 fails on two rows of three cells that do not touch, with the single
    word CAT: [solve] returns an assignment that gives CAT to both rows. *)
Theorem solve_returns_repeated_word :
  (λ out, out.1) <$> solve two_rows = Some (Some [(row 2 3, "CAT"); (row 0 3, "CAT")]) ∧
  ¬ valid_solution two_rows [(row 2 3, "CAT"); (row 0 3, "CAT")].
Proof.
  split; [vm_compute; reflexivity|].
  intros (_ & Hdistinct & _).
  specialize (Hdistinct (row 2 3) (row 0 3) "CAT" eq_refl eq_refl). discriminate.
Qed.

(** C3 fails on the same puzzle: with CAT already given to the row at line
    2, the second call of [backtrack] commits CAT for the row at line 0,
    although the assignment extended with it is not consistent; only the
    assignment without the candidate was tested. *)
Theorem backtrack_commits_inconsistent_candidate :
  (λ out, trace out.2) <$> solve two_rows
  = Some [Enter [];
          Commit (row 2 3) "CAT"; Enter [(row 2 3, "CAT")];
          Commit (row 0 3) "CAT"; Enter [(row 2 3, "CAT"); (row 0 3, "CAT")]] ∧
  consistent two_rows [(row 2 3, "CAT")] = Some true ∧
  consistent two_rows (dict_set [(row 2 3, "CAT")] (row 0 3) "CAT") = Some false.
Proof. repeat split; vm_compute; reflexivity. Qed.

(** C4 fails on four rows of two cells that do not touch, with the words AB
    and CD.  The first call of [backtrack] selects the row at line 6 and
    tries CD, then AB; both branches fail.  After the first undo the store is
    what it was when the loop started; the second branch then writes into
    the snapshot itself, and after the second undo the store still holds the
    tentative domains {AB}, {CD} and {CD} of three rows, not the domains
    {AB, CD} it held before that branch. *)
Theorem second_undo_keeps_tentative_pruning :
  first_call_branches four_rows "CD" "AB"
  = Some (row 6 2, ["CD"; "AB"],
          init_domains four_rows,
          (None, init_domains four_rows),
          (None, {[row 6 2 := {["AB"]}; row 4 2 := {["CD"]};
                   row 2 2 := {["CD"]}; row 0 2 := {["AB"; "CD"]}]})) ∧
  init_domains four_rows !! row 6 2 = Some {["AB"; "CD"]}.
Proof. split; vm_compute; reflexivity. Qed.

(** * Further properties of the code *)

(** ** __init__ *)

Lemma init_domains_lookup_dec (cw : Crossword) (v : Slot) :
  init_domains cw !! v = if decide (v ∈ variables cw) then Some (words cw) else None.
Proof.
  destruct (decide (v ∈ variables cw)) as [Hv|Hv].
  - apply lookup_set_to_map; [by intros ??? ? [=]|]. by exists v.
  - apply not_elem_of_dom. by rewrite dom_init_domains.
Qed.

(** X1: [__init__] gives every slot of the puzzle the whole vocabulary, and
    the store has no other key. *)
Theorem init_domains_lookup (cw : Crossword) (v : Slot) :
  init_domains cw !! v = if decide (v ∈ variables cw) then Some (words cw) else None.
Proof. apply init_domains_lookup_dec. Qed.

(** ** check_overlap *)

Lemma string_get_None (w : string) (i : nat) : String.get i w = None ↔ String.length w ≤ i.
Proof.
  revert i. induction w as [|c w IH]; intros i; simpl.
  - split; [lia|done].
  - destruct i as [|i]; [split; [done|lia]|]. rewrite IH. lia.
Qed.

Lemma string_get_is_Some (w : string) (i : nat) : is_Some (String.get i w) ↔ i < String.length w.
Proof. rewrite <- not_eq_None_Some, string_get_None. lia. Qed.

Lemma check_overlap_None (cw : Crossword) (x y : Slot) (word_x word_y : string) :
  check_overlap cw x y word_x word_y = None
  ↔ ∃ i j, overlaps cw x y = Some (i, j) ∧
           (String.length word_x ≤ i ∨ String.length word_y ≤ j).
Proof.
  unfold check_overlap.
  destruct (overlaps cw x y) as [[i j]|]; [|split; [done|by intros (i & j & ? & _)]].
  destruct (String.get i word_x) as [cx|] eqn:Hx, (String.get j word_y) as [cy|] eqn:Hy; simpl.
  - split; [done|].
    intros (i' & j' & [= <- <-] & [H|H]); apply string_get_None in H; congruence.
  - split; [|done]. intros _. exists i, j. split; [done|]. right. by apply string_get_None.
  - split; [|done]. intros _. exists i, j. split; [done|]. left. by apply string_get_None.
  - split; [|done]. intros _. exists i, j. split; [done|]. left. by apply string_get_None.
Qed.

(** X2: for two different slots of the puzzle, the pairs that the overlap
    table holds, [check_overlap] raises exactly when the two slots overlap
    and one of the two offsets is past the end of its word. *)
Theorem check_overlap_raises (cw : Crossword) (x y : Slot) (word_x word_y : string) :
  table_pair cw x y →
  (check_overlap cw x y word_x word_y = None
   ↔ ∃ i j, overlaps cw x y = Some (i, j) ∧
            (String.length word_x ≤ i ∨ String.length word_y ≤ j)).
Proof. intros _. apply check_overlap_None. Qed.

(** X3: with symmetric overlap data, [check_overlap] gives the same answer
    (or raises alike) when the two slots and their words are exchanged. *)
Theorem check_overlap_symmetric (cw : Crossword) (x y : Slot) (word_x word_y : string) :
  overlaps_symmetric cw →
  check_overlap cw y x word_y word_x = check_overlap cw x y word_x word_y.
Proof.
  intros Hsym. unfold check_overlap. rewrite (Hsym x y).
  destruct (overlaps cw x y) as [[i j]|]; simpl; [|done].
  destruct (String.get i word_x) as [cx|], (String.get j word_y) as [cy|]; simpl; try done.
  f_equal. apply bool_decide_ext. split; congruence.
Qed.

Lemma corner_overlaps_symmetric vocabulary : overlaps_symmetric (corner vocabulary).
Proof.
  intros x y. simpl. unfold corner_overlaps.
  destruct (decide (x = across ∧ y = down ∨ x = down ∧ y = across)) as [H|H];
    [rewrite decide_True by tauto|rewrite decide_False by tauto]; done.
Qed.

Lemma check_overlap_raises_witness :
  check_overlap (corner {["AB"; "AC"]}) across down "" "AB" = None
  ↔ ∃ i j, overlaps (corner {["AB"; "AC"]}) across down = Some (i, j) ∧
           (String.length "" ≤ i ∨ String.length "AB" ≤ j).
Proof.
  apply check_overlap_raises. split; [discriminate|]. simpl. split; set_solver.
Defined.

Lemma check_overlap_symmetric_witness :
  check_overlap (corner {["AB"; "AC"]}) down across "AC" "AB"
  = check_overlap (corner {["AB"; "AC"]}) across down "AB" "AC".
Proof. apply check_overlap_symmetric. apply corner_overlaps_symmetric. Defined.

(** ** revise *)

Section revise_more.
Context (cw : Crossword).

Lemma find_support_total x y w ys :
  (∀ w', w' ∈ ys → w' ≠ w → is_Some (check_overlap cw x y w w')) →
  is_Some (find_support cw x y w ys).
Proof.
  induction ys as [|word_y ys IH]; intros Hys; simpl; [by eauto|].
  destruct (decide (w = word_y)) as [->|Hne].
  - apply IH. intros w' ? ?. apply Hys; [by right|done].
  - destruct (Hys word_y) as [[] ->]; [by left|done| |]; simpl; [by eauto|].
    apply IH. intros w' ? ?. apply Hys; [by right|done].
Qed.

Lemma revise_loop_total x y d xs revised to_remove :
  (∀ w, w ∈ xs → is_Some (verdict cw x y d w)) →
  is_Some (revise_loop cw x y d xs revised to_remove).
Proof.
  revert revised to_remove. induction xs as [|word_x xs IH]; intros revised to_remove Hxs;
    simpl; [by eauto|].
  destruct (Hxs word_x) as [valid Hv]; [by left|].
  unfold verdict in Hv. destruct (d !! y) as [dy|]; simpl in *; [|done].
  rewrite Hv. simpl. destruct valid; apply IH; intros w ?; apply Hxs; by right.
Qed.

(** [revise] in terms of the verdicts of its inner loop: it returns when
    every word of [domain(x)] gets a verdict, and then removes the words
    whose verdict is [False]. *)
Lemma revise_Some x y (d : Domains) (dx : gset string) :
  d !! x = Some dx →
  (∀ w, w ∈ dx → is_Some (verdict cw x y d w)) →
  ∃ revised (to_remove : gset string),
    revise cw x y d = Some (revised, <[x := dx ∖ to_remove]> d) ∧
    (∀ w, w ∈ to_remove ↔ w ∈ dx ∧ verdict cw x y d w = Some false) ∧
    (revised = true ↔ ∃ w, w ∈ dx ∧ verdict cw x y d w = Some false).
Proof.
  intros Hx Hall.
  destruct (revise_loop_total x y d (elements dx) false ∅) as [[rev rem] Hl].
  { intros w ?%elem_of_elements. by apply Hall. }
  assert (Hr : revise cw x y d = Some (rev, <[x := dx ∖ rem]> d)).
  { unfold revise. rewrite Hx. simpl. by rewrite Hl. }
  apply revise_loop_spec in Hl as (_ & Hrem2 & Hrev2).
  exists rev, rem. split; [done|]. split.
  - intros w. rewrite Hrem2, elem_of_elements. set_solver.
  - rewrite Hrev2. setoid_rewrite elem_of_elements. split.
    + by intros [?|?].
    + by right.
Qed.

Lemma verdict_insert_ne x y (d : Domains) (ws : gset string) w :
  x ≠ y → verdict cw x y (<[x := ws]> d) w = verdict cw x y d w.
Proof. intros Hxy. unfold verdict. by rewrite lookup_insert_ne. Qed.

(** X4: a second [revise(x, y)] right after the first removes nothing: it
    returns [False] and leaves the store as the first call left it. *)
Theorem revise_twice (x y : Slot) (d d' : Domains) (revised : bool) :
  x ≠ y →
  revise cw x y d = Some (revised, d') →
  revise cw x y d' = Some (false, d').
Proof.
  intros Hxy Hr.
  apply revise_inv in Hr as (dx & rem & Hx & -> & Hall & Hrem & _).
  destruct (revise_Some x y (<[x := dx ∖ rem]> d) (dx ∖ rem)) as (rev2 & rem2 & Hr2 & Hrem2 & Hrev2).
  { by rewrite lookup_insert_eq. }
  { intros w [Hw _]%elem_of_difference. rewrite verdict_insert_ne by done. by apply Hall. }
  assert (Hnone : ∀ w, w ∈ dx ∖ rem → verdict cw x y (<[x := dx ∖ rem]> d) w ≠ Some false).
  { intros w [Hw Hn]%elem_of_difference. rewrite verdict_insert_ne by done.
    intros Hv. apply Hn, Hrem. done. }
  assert (rem2 = ∅) as ->.
  { apply set_eq. intros w. rewrite Hrem2. split; [|set_solver].
    intros [Hw Hv]. by destruct (Hnone w Hw). }
  assert (rev2 = false) as ->.
  { destruct rev2; [|done]. destruct Hrev2 as [Hrev2 _].
    destruct (Hrev2 eq_refl) as (w & Hw & Hv). by destruct (Hnone w Hw). }
  rewrite Hr2. f_equal. f_equal.
  rewrite difference_empty_L. apply insert_id. by rewrite lookup_insert_eq.
Qed.

Lemma shrinks_node_consistent (d d' : Domains) :
  shrinks d d' → node_consistent d → node_consistent d'.
Proof.
  intros [_ Hsub] Hnc v ws' w Hv Hw.
  destruct (Hsub v ws' Hv) as (ws & Hws & Hincl). eapply Hnc; [done|]. by apply Hincl.
Qed.

Lemma check_overlap_in_range x y (w w' : string) :
  overlaps_in_range cw →
  String.length w = var_length x → String.length w' = var_length y →
  is_Some (check_overlap cw x y w w').
Proof.
  intros Hrange Hw Hw'. apply not_eq_None_Some.
  intros (i & j & Ho & Hlen)%check_overlap_None.
  apply Hrange in Ho. lia.
Qed.

Lemma verdict_in_range x y (d : Domains) (dx : gset string) w :
  overlaps_in_range cw → node_consistent d →
  d !! x = Some dx → w ∈ dx → is_Some (d !! y) →
  is_Some (verdict cw x y d w).
Proof.
  intros Hrange Hnc Hx Hw [dy Hy]. unfold verdict. rewrite Hy. simpl.
  apply find_support_total. intros w' Hw'%elem_of_elements _.
  apply check_overlap_in_range; [done|by eapply Hnc|by eapply Hnc].
Qed.

Lemma revise_None (x y : Slot) (d : Domains) :
  overlaps_in_range cw → node_consistent d →
  (revise cw x y d = None
   ↔ d !! x = None ∨ (d !! x ≠ Some ∅ ∧ d !! y = None)).
Proof.
  intros Hrange Hnc. split.
  - intros Hr. destruct (d !! x) as [dx|] eqn:Hx; [|by left]. right.
    destruct (d !! y) as [dy|] eqn:Hy.
    + destruct (revise_Some x y d dx Hx) as (rev & rem & Hr' & _); [|congruence].
      intros w Hw. eapply verdict_in_range; eauto.
    + split; [|done]. intros [= ->].
      unfold revise in Hr. rewrite Hx in Hr. simpl in Hr.
      by rewrite elements_empty in Hr.
  - unfold revise. intros [->|[Hx Hy]]; [done|].
    destruct (d !! x) as [dx|]; simpl; [|done].
    destruct (elements dx) as [|w ws] eqn:Hel.
    { apply elements_empty_inv, leibniz_equiv in Hel. by subst. }
    simpl. by rewrite Hy.
Qed.

(** X5: for two different slots [x] and [y] of the puzzle, on a
    node-consistent store of a puzzle whose overlaps point inside the
    slots, [revise] raises nothing but the [KeyError] of a slot missing
    from the store: exactly when [x] is not a key of the store, or
    [domain(x)] is not empty and [y] is not a key. *)
Theorem revise_raises (x y : Slot) (d : Domains) :
  table_pair cw x y →
  overlaps_in_range cw → node_consistent d →
  (revise cw x y d = None
   ↔ d !! x = None ∨ (d !! x ≠ Some ∅ ∧ d !! y = None)).
Proof. intros _. apply revise_None. Qed.

(** X6: node consistency, once established, is kept by [revise] and by
    [ac3]. *)
Theorem node_consistent_preserved (d d' : Domains) :
  node_consistent d →
  (∀ x y revised, revise cw x y d = Some (revised, d') → node_consistent d') ∧
  (∀ arcs ok, ac3 cw arcs d = Some (ok, d') → node_consistent d').
Proof.
  intros Hnc. split.
  - intros x y revised Hr. eapply shrinks_node_consistent; [|done]. by eapply revise_shrinks.
  - intros arcs ok Hr. eapply shrinks_node_consistent; [|done]. by eapply ac3_shrinks.
Qed.
End revise_more.

Lemma enforce_node_consistency_node_consistent (d : Domains) :
  node_consistent (enforce_node_consistency d).
Proof.
  intros v ws w. rewrite enforce_node_consistency_lookup.
  destruct (d !! v) as [ws0|]; simpl; [|done].
  intros [= <-] Hw. by apply elem_of_filter in Hw as [? _].
Qed.

Lemma corner_overlaps_in_range vocabulary : overlaps_in_range (corner vocabulary).
Proof.
  intros x y i j. simpl. unfold corner_overlaps.
  destruct (decide _) as [[[-> ->]|[-> ->]]|]; [| |done]; intros [= <- <-]; simpl; lia.
Qed.

(** ** ac3 *)

Section ac3_more.
Context (cw : Crossword).

Lemma all_arcs_inner (var : Slot) (nbs : list Slot) (arcs : gset Arc) (arc : Arc) :
  arc ∈ foldl (λ arcs neighbor, {[(var, neighbor)]} ∪ arcs) arcs nbs
  ↔ arc ∈ arcs ∨ ∃ neighbor, neighbor ∈ nbs ∧ arc = (var, neighbor).
Proof.
  revert arcs. induction nbs as [|nb nbs IH]; intros arcs; simpl.
  - split; [by left|]. by intros [?|(? & ?%elem_of_nil & _)].
  - rewrite IH, elem_of_union, elem_of_singleton. split.
    + intros [[->|?]|(n & ? & ->)]; [|by left|].
      * right. exists nb. split; [by left|done].
      * right. exists n. split; [by right|done].
    + intros [?|(n & [->|?]%elem_of_cons & ->)]; [by left; right|by left; left|].
      right. by exists n.
Qed.

Lemma all_arcs_outer (vars : list Slot) (arcs : gset Arc) (arc : Arc) :
  arc ∈ foldl (λ arcs var,
                 foldl (λ arcs neighbor, {[(var, neighbor)]} ∪ arcs)
                       arcs (elements (neighbors cw var))) arcs vars
  ↔ arc ∈ arcs ∨ (arc.1 ∈ vars ∧ arc.2 ∈ neighbors cw arc.1).
Proof.
  revert arcs. induction vars as [|var vars IH]; intros arcs; simpl.
  - split; [by left|]. by intros [?|[?%elem_of_nil _]].
  - rewrite IH, all_arcs_inner. setoid_rewrite elem_of_elements. split.
    + intros [[?|(n & Hn & ->)]|[? ?]]; [by left| |].
      * right. simpl. split; [by left|done].
      * right. split; [by right|done].
    + intros [?|[[Heq|?]%elem_of_cons Hn]]; [by left; left| |by right].
      left. right. exists arc.2. split; [by rewrite <- Heq|]. rewrite <- Heq. by destruct arc.
Qed.

Lemma all_arcs_elem_of (x y : Slot) :
  (x, y) ∈ elements (all_arcs cw) ↔ x ∈ variables cw ∧ y ∈ neighbors cw x.
Proof.
  rewrite elem_of_elements. unfold all_arcs. rewrite all_arcs_outer. simpl.
  rewrite elem_of_elements. split; [by intros [?%elem_of_empty|?]|by right].
Qed.

(** X7: the worklist [ac3] starts from when it is given no arcs holds the
    arc [(x, y)] exactly when [x] is a slot of the puzzle and [y] one of its
    neighbors. *)
Theorem all_arcs_spec (x y : Slot) :
  (x, y) ∈ elements (all_arcs cw) ↔ x ∈ variables cw ∧ y ∈ neighbors cw x.
Proof. apply all_arcs_elem_of. Qed.

Lemma compatible_symmetric x y w w' :
  overlaps_symmetric cw → compatible cw x y w w' → compatible cw y x w' w.
Proof.
  intros Hsym. unfold compatible. rewrite (Hsym x y).
  destruct (overlaps cw x y) as [[i j]|]; simpl; [|done].
  intros (c & ? & ?). eauto.
Qed.

Lemma revise_arc_consistent x y d revised d' :
  x ≠ y → revise cw x y d = Some (revised, d') → arc_consistent cw d' x y.
Proof.
  intros Hxy (dx & rem & Hx & -> & Hall & Hrem & _)%revise_inv dx' w.
  rewrite lookup_insert_eq. intros [= <-] [Hw Hn]%elem_of_difference.
  destruct (Hall w Hw) as [v Hv].
  destruct v; [|by destruct Hn; apply Hrem].
  unfold verdict in Hv. destruct (d !! y) as [dy|] eqn:Hy; simpl in Hv; [|done].
  apply find_support_true in Hv as (w' & Hw'%elem_of_elements & ? & ?).
  exists dy, w'. by rewrite lookup_insert_ne.
Qed.

Lemma requeue_elem_of x y z x' : (z, x') ∈ requeue cw x y ↔ x' = x ∧ z ≠ y ∧ z ∈ neighbors cw x.
Proof.
  unfold requeue. rewrite list_elem_of_fmap. split.
  - intros (n & [= -> ->] & [? ?%elem_of_elements]%list_elem_of_filter). done.
  - intros (-> & ? & ?). exists z. split; [done|].
    apply list_elem_of_filter. split; [done|]. by apply elem_of_elements.
Qed.

Lemma ac3_spec_arc_consistent queue d d' :
  neighbors_symmetric cw → neighbors_irreflexive cw → overlaps_symmetric cw →
  ac3_spec cw queue d (Some (true, d')) →
  graph_arcs cw queue → pending_or_consistent cw queue d →
  pending_or_consistent cw [] d'.
Proof.
  intros Hnsym Hirr Hosym Hspec.
  remember (Some (true, d')) as out eqn:Hout.
  induction Hspec as [d|x y queue d Hr|x y queue d d1 out Hr _ IH
                      |x y queue d d1 Hr Hx|x y queue d d1 dx out Hr Hx Hne _ IH];
    intros Hgraph Hinv; try done.
  - by injection Hout as <-.
  - assert (Hxy : x ≠ y).
    { intros ->. apply (Hirr y), Hgraph. by left. }
    pose proof (revise_arc_consistent _ _ _ _ _ Hxy Hr) as Hcons.
    apply revise_false_id in Hr as ->.
    apply IH; [done| |].
    + intros a b Hab. apply Hgraph. by right.
    + intros a b Ha Hb. destruct (Hinv a b Ha Hb) as [[[= -> ->]|?]%elem_of_cons|?];
        [by right|by left|by right].
  - assert (Hxy : x ≠ y).
    { intros ->. apply (Hirr y), Hgraph. by left. }
    pose proof (revise_arc_consistent _ _ _ _ _ Hxy Hr) as Hcons.
    apply IH; [done| |].
    + intros a b [Hab|Hab]%elem_of_app; [apply Hgraph; by right|].
      apply requeue_elem_of in Hab as (-> & _ & ?). by apply Hnsym.
    + apply revise_inv in Hr as (dx0 & rem & Hdx0 & -> & Hall & Hrem & _).
      intros a b Ha Hb.
      destruct (decide ((a, b) = (x, y))) as [[= -> ->]|Hne1]; [by right|].
      destruct (decide (b = x)) as [->|Hbx].
      * (* an arc into [x] *)
        destruct (decide (a = y)) as [->|Hay].
        -- destruct (Hinv y x Ha Hb) as [[Heq|?]%elem_of_cons|Hc]; [congruence| |].
           { left. apply elem_of_app. by left. }
           right. intros dy v. rewrite lookup_insert_ne by done. intros Hy Hv.
           destruct (Hc dy v Hy Hv) as (dx1 & w & Hdx1 & Hw & Hwv & Hcomp).
           assert (dx1 = dx0) as -> by congruence.
           exists (dx0 ∖ rem), w. rewrite lookup_insert_eq. split; [done|].
           split; [|done]. apply elem_of_difference. split; [done|].
           intros [_ Hfalse]%Hrem.
           apply (verdict_false_iff _ _ _ _ _ _ Hfalse); [done|].
           exists dy, v. split; [done|]. split; [done|]. split; [done|].
           by apply compatible_symmetric.
        -- left. apply elem_of_app. right. apply requeue_elem_of.
           split; [done|]. split; [done|]. by apply Hnsym.
      * (* an arc that does not end at [x] *)
        destruct (Hinv a b Ha Hb) as [[[= -> ->]|?]%elem_of_cons|Hc]; [done| |].
        { left. apply elem_of_app. by left. }
        right. intros da w. destruct (decide (a = x)) as [->|Hax].
        -- rewrite lookup_insert_eq. intros [= <-] [Hw _]%elem_of_difference.
           destruct (Hc dx0 w Hdx0 Hw) as (db & w' & ? & ?).
           exists db, w'. by rewrite lookup_insert_ne.
        -- rewrite lookup_insert_ne by done. intros Hda Hw.
           destruct (Hc da w Hda Hw) as (db & w' & ? & ?).
           exists db, w'. by rewrite lookup_insert_ne.
Qed.

(** X8: when the global pass of [ac3] returns [True], every arc of the
    puzzle is consistent: for every slot [x] and neighbor [y], every word
    left in [domain(x)] has a compatible word other than itself in
    [domain(y)].  The puzzle's neighbor relation and overlaps are symmetric
    and no slot is its own neighbor. *)
Theorem ac3_arc_consistent (d d' : Domains) :
  neighbors_symmetric cw → neighbors_irreflexive cw → overlaps_symmetric cw →
  ac3 cw None d = Some (true, d') →
  ∀ x y, x ∈ variables cw → y ∈ neighbors cw x → arc_consistent cw d' x y.
Proof.
  intros Hnsym Hirr Hosym Hac3 x y Hx Hy. unfold ac3 in Hac3.
  apply ac3_queue_refines in Hac3.
  destruct (ac3_spec_arc_consistent _ _ _ Hnsym Hirr Hosym Hac3) with x y as [?%elem_of_nil|?];
    try done.
  - intros a b. by intros [_ ?]%all_arcs_elem_of.
  - intros a b Ha Hb. left. by apply all_arcs_elem_of.
Qed.

Lemma ac3_spec_returns queue d out :
  overlaps_in_range cw →
  ac3_spec cw queue d out →
  node_consistent d → arcs_in cw queue d →
  is_Some out.
Proof.
  intros Hrange Hspec.
  induction Hspec as [d|x y queue d Hr|x y queue d d1 out Hr _ IH
                      |x y queue d d1 Hr Hx|x y queue d d1 dx out Hr Hx Hne _ IH];
    intros Hnc [Hq Hn]; try by eauto.
  - exfalso. apply (revise_None cw x y d Hrange Hnc) in Hr.
    destruct (Hq x y) as [[dx Hdx]%elem_of_dom [dy Hdy]%elem_of_dom]; [by left|].
    destruct Hr as [?|[_ ?]]; congruence.
  - apply revise_false_id in Hr as ->. apply IH; [done|]. split; [|done].
    intros a b ?. apply Hq. by right.
  - pose proof (revise_shrinks _ _ _ _ _ _ Hr) as Hsh. destruct Hsh as [Hdom Hsub].
    apply IH.
    + eapply shrinks_node_consistent; [|done]. by eapply revise_shrinks.
    + unfold arcs_in. rewrite Hdom. split; [|done].
      intros a b [Hab|Hab]%elem_of_app; [apply Hq; by right|].
      apply requeue_elem_of in Hab as (-> & _ & ?).
      destruct (Hq x y) as [Hxd _]; [by left|]. split; [|done]. by eapply Hn.
Qed.

Lemma ac3_is_Some (arcs : list Arc) (d : Domains) :
  overlaps_in_range cw → node_consistent d → arcs_in cw arcs d →
  is_Some (ac3 cw (Some arcs) d).
Proof.
  intros Hrange Hnc Harcs. eapply ac3_spec_returns; [done| |done|done].
  by apply ac3_queue_refines.
Qed.

End ac3_more.

(** ** assignment_complete and consistent *)

Section dict_more.
Context {K V : Type} `{EqDecision K}.
Implicit Types (d : list (K * V)) (k : K) (v : V).

Lemma dict_get_is_Some d k : is_Some (dict_get d k) ↔ k ∈ d.*1.
Proof.
  induction d as [|[k' v'] d IH]; simpl.
  - split; [by intros [? ?]|by intros ?%elem_of_nil].
  - destruct (decide (k = k')) as [->|Hne].
    + split; [intros _; by left|by eauto].
    + rewrite IH, elem_of_cons. naive_solver.
Qed.

Lemma dict_get_Some_elem_of d k v : dict_get d k = Some v → (k, v) ∈ d.
Proof.
  induction d as [|[k' v'] d IH]; simpl; [done|].
  destruct (decide (k = k')) as [->|Hne]; [intros [= ->]; by left|].
  intros ?. right. by apply IH.
Qed.

(** a dictionary has one entry per key *)
Lemma dict_get_Some d k v : NoDup d.*1 → (dict_get d k = Some v ↔ (k, v) ∈ d).
Proof.
  intros Hnd. split; [apply dict_get_Some_elem_of|].
  induction d as [|[k' v'] d IH]; simpl; [by intros ?%elem_of_nil|].
  apply NoDup_cons in Hnd as [Hk' Hnd]. simpl in Hk'.
  intros [[= -> ->]|Hin]%elem_of_cons; [by rewrite decide_True|].
  rewrite decide_False; [by apply IH|].
  intros ->. apply Hk'. by apply (list_elem_of_fmap_2 fst) in Hin.
Qed.
End dict_more.

Section assignment_facts.
Context (cw : Crossword).

Lemma assignment_complete_true (a : Assignment) :
  NoDup a.*1 → (∀ v, v ∈ a.*1 → v ∈ variables cw) →
  (assignment_complete cw a = true ↔ ∀ v, v ∈ variables cw → is_Some (dict_get a v)).
Proof.
  intros Hnd Hkeys. unfold assignment_complete. rewrite bool_decide_eq_true.
  set (keys := list_to_set a.*1 : gset Slot).
  assert (Hsize : size keys = length a).
  { unfold keys. rewrite size_list_to_set by done. by rewrite length_fmap. }
  assert (Hsub : keys ⊆ variables cw).
  { intros v ?%elem_of_list_to_set. by apply Hkeys. }
  split.
  - intros Heq v Hv. apply dict_get_is_Some.
    assert (keys = variables cw) as Hk.
    { apply set_subseteq_size_eq; [done|lia]. }
    apply (elem_of_list_to_set (C := gset Slot)). fold keys. by rewrite Hk.
  - intros Hall. rewrite <- Hsize. f_equal. apply set_eq. intros v. split; [|by apply Hsub].
    intros Hv. apply elem_of_list_to_set, dict_get_is_Some. by apply Hall.
Qed.

(** X10: for an assignment whose keys are slots of the puzzle,
    [assignment_complete], which only compares two sizes, is [True] exactly
    when every slot of the puzzle has a word. *)
Theorem assignment_complete_spec (a : Assignment) :
  NoDup a.*1 → (∀ v, v ∈ a.*1 → v ∈ variables cw) →
  (assignment_complete cw a = true ↔ ∀ v, v ∈ variables cw → is_Some (dict_get a v)).
Proof. apply assignment_complete_true. Qed.

Lemma consistent_neighbors_true (a : Assignment) var nbs :
  consistent_neighbors cw a var nbs = Some true
  ↔ ∀ n nv, n ∈ nbs → dict_get a n = Some nv →
      ∃ value, dict_get a var = Some value ∧ compatible cw var n value nv.
Proof.
  induction nbs as [|neighbor nbs IH]; simpl.
  - split; [by intros _ n nv ?%elem_of_nil|done].
  - destruct (dict_get a neighbor) as [nv|] eqn:Hn; simpl.
    + destruct (dict_get a var) as [value|] eqn:Hv; simpl.
      * destruct (check_overlap cw var neighbor value nv) as [[]|] eqn:Hc; simpl.
        -- rewrite IH. split.
           ++ intros Hall n nv' [->|?]%elem_of_cons Hn'; [|by apply Hall].
              exists value. split; [done|]. apply check_overlap_true.
              by assert (nv' = nv) as -> by congruence.
           ++ intros Hall n nv' ? ?. apply Hall; [by right|done].
        -- split; [done|]. intros Hall.
           destruct (Hall neighbor nv) as (value' & [= <-] & Hcomp); [by left|done|].
           apply check_overlap_true in Hcomp. congruence.
        -- split; [done|]. intros Hall.
           destruct (Hall neighbor nv) as (value' & [= <-] & Hcomp); [by left|done|].
           apply check_overlap_true in Hcomp. congruence.
      * split; [done|]. intros Hall.
        destruct (Hall neighbor nv) as (value' & Hv' & _); [by left|done|]. congruence.
    + rewrite IH. split.
      * intros Hall n nv' [->|?]%elem_of_cons Hn'; [congruence|by apply Hall].
      * intros Hall n nv' ? ?. apply Hall; [by right|done].
Qed.

Lemma consistent_items_true (a : Assignment) items (used : gset string) :
  consistent_items cw a items used = Some true
  ↔ (∀ v w, (v, w) ∈ items → String.length w = var_length v) ∧
    NoDup items.*2 ∧ (∀ w, w ∈ items.*2 → w ∉ used) ∧
    (∀ v w, (v, w) ∈ items →
       consistent_neighbors cw a v (elements (neighbors cw v)) = Some true).
Proof.
  revert used. induction items as [|[var value] items IH]; intros used; simpl.
  - split; [|done]. intros _. split; [by intros ?? ?%elem_of_nil|].
    split; [constructor|]. split; [by intros ? ?%elem_of_nil|by intros ?? ?%elem_of_nil].
  - destruct (bool_decide (String.length value ≠ var_length var)) eqn:Hlen; simpl.
    { split; [done|]. intros (Hl & _). apply bool_decide_eq_true in Hlen.
      destruct Hlen. apply (Hl var value). by left. }
    apply bool_decide_eq_false in Hlen.
    assert (Hlen' : String.length value = var_length var) by (by apply dec_stable).
    destruct (bool_decide (value ∈ used)) eqn:Hused; simpl.
    { split; [done|]. intros (_ & _ & Hu & _). apply bool_decide_eq_true in Hused.
      destruct (Hu value); [simpl; by left|done]. }
    apply bool_decide_eq_false in Hused.
    destruct (consistent_neighbors cw a var _) as [[]|] eqn:Hcn; simpl.
    + rewrite IH, NoDup_cons. split.
      * intros (Hl & Hnd & Hu & Hn). split; [|split; [|split]].
        -- intros v w [[= -> ->]|?]%elem_of_cons; [done|by apply Hl].
        -- split; [|done]. intros Hin. apply (Hu value Hin). set_solver.
        -- intros w [->|Hin]%elem_of_cons; [done|]. specialize (Hu w Hin). set_solver.
        -- intros v w [[= -> ->]|?]%elem_of_cons; [done|by apply (Hn v w)].
      * intros (Hl & [Hni Hnd] & Hu & Hn). split; [|split; [|split]].
        -- intros v w ?. apply Hl. by right.
        -- done.
        -- intros w Hin [->%elem_of_singleton|?]%elem_of_union; [done|].
           apply (Hu w); [by right|done].
        -- intros v w ?. apply (Hn v w). by right.
    + split; [done|]. intros (_ & _ & _ & Hn).
      specialize (Hn var value (list_elem_of_here _ _)). congruence.
    + split; [done|]. intros (_ & _ & _ & Hn).
      specialize (Hn var value (list_elem_of_here _ _)). congruence.
Qed.

(** X11: [consistent] returns [True] exactly on the assignments in which
    every word has the length of its slot, no word is used twice, and the
    words of every slot and of each assigned neighbor of it are compatible;
    on such an assignment it does not raise. *)
Theorem consistent_spec (a : Assignment) :
  NoDup a.*1 →
  (consistent cw a = Some true
   ↔ (∀ v w, (v, w) ∈ a → String.length w = var_length v) ∧
     NoDup a.*2 ∧
     (∀ v w n w', (v, w) ∈ a → n ∈ neighbors cw v → (n, w') ∈ a →
        compatible cw v n w w')).
Proof.
  intros Hnd. unfold consistent. rewrite consistent_items_true.
  split.
  - intros (Hl & Hv & _ & Hn). split; [done|]. split; [done|].
    intros v w n w' Hvw Hnb Hnw'.
    apply Hn in Hvw as Hcn. rewrite consistent_neighbors_true in Hcn.
    destruct (Hcn n w') as (value & Hvalue & Hcomp).
    { by apply elem_of_elements. } { by apply dict_get_Some. }
    apply dict_get_Some in Hvw; [|done]. congruence.
  - intros (Hl & Hv & Hn). split; [done|]. split; [done|]. split; [set_solver|].
    intros v w Hvw. apply consistent_neighbors_true.
    intros n nv Hnb%elem_of_elements Hnv. exists w. split; [by apply dict_get_Some|].
    eapply Hn; [done..|]. by apply dict_get_Some.
Qed.
End assignment_facts.

(** ** Sorting, again *)

Section sorting_more.
Context {A : Type} (le : A → A → bool).
Hypothesis le_total : ∀ x y, le x y = true ∨ le y x = true.
Hypothesis le_trans : ∀ x y z, le x y = true → le y z = true → le x z = true.

Lemma insert_by_perm x l : insert_by le x l ≡ₚ x :: l.
Proof.
  induction l as [|y l IH]; simpl; [done|].
  destruct (le x y); [done|]. rewrite IH. apply Permutation_swap.
Qed.

Lemma stable_sort_perm l : stable_sort le l ≡ₚ l.
Proof.
  induction l as [|x l IH]; simpl; [done|]. by rewrite insert_by_perm, IH.
Qed.

Lemma insert_by_sorted x l :
  StronglySorted (λ a b, le a b = true) l →
  StronglySorted (λ a b, le a b = true) (insert_by le x l).
Proof.
  induction l as [|y l IH]; simpl; intros Hs.
  - by repeat constructor.
  - apply StronglySorted_cons in Hs as [Hy Hs].
    destruct (le x y) eqn:Hxy.
    + apply StronglySorted_cons. split; [|by apply StronglySorted_cons].
      constructor; [done|]. eapply Forall_impl; [exact Hy|].
      intros z ?. by eapply le_trans.
    + apply StronglySorted_cons. split; [|by apply IH].
      apply Forall_forall. intros z Hz%insert_by_elem_of.
      destruct Hz as [->|Hz]; [by destruct (le_total x y); congruence|].
      by eapply Forall_forall in Hy.
Qed.

Lemma stable_sort_sorted l : StronglySorted (λ a b, le a b = true) (stable_sort le l).
Proof.
  induction l as [|x l IH]; simpl; [constructor|]. by apply insert_by_sorted.
Qed.

(** a list whose elements all compare as equal is left as it is *)
Lemma stable_sort_flat l :
  (∀ x y, x ∈ l → y ∈ l → le x y = true) → stable_sort le l = l.
Proof.
  induction l as [|x l IH]; intros Hflat; simpl; [done|].
  rewrite IH by (intros; apply Hflat; by right).
  destruct l as [|y l]; simpl; [done|].
  rewrite Hflat; [done|by left|by right; left].
Qed.
End sorting_more.

(** ** order_domain_values and select_unassigned_variable *)

Section heuristics.
Context (cw : Crossword).

Lemma mapM_pairs {A B : Type} (f : A → option B) (l : list A) (k : list (B * A)) :
  mapM (λ x, y ← f x; Some (y, x)) l = Some k →
  k.*2 = l ∧ ∀ p, p ∈ k → f p.2 = Some p.1.
Proof.
  intros Hm%mapM_Some. induction Hm as [|x p l k Hp _ IH]; csimpl.
  - split; [done|]. by intros p ?%elem_of_nil.
  - destruct IH as [IH1 IH2]. destruct (f x) as [y|] eqn:Hy; simpl in Hp; [|done].
    injection Hp as <-. split; [by rewrite IH1|].
    intros p [->|?]%elem_of_cons; [done|by apply IH2].
Qed.

Lemma strongly_sorted_counts (count : string → option nat) (l : list (nat * string)) :
  (∀ p, p ∈ l → count p.2 = Some p.1) →
  StronglySorted (λ p q : nat * string, (p.1 <=? q.1) = true) l →
  StronglySorted (λ v1 v2, default 0 (count v1) ≤ default 0 (count v2)) l.*2.
Proof.
  induction l as [|p l IH]; intros Hc Hs; csimpl; [constructor|].
  apply StronglySorted_cons in Hs as [Hp Hs]. apply StronglySorted_cons. split.
  - apply Forall_fmap, Forall_forall. intros q Hq. simpl.
    rewrite (Hc p), (Hc q); [|by right|by left]. simpl.
    eapply Forall_forall in Hp; [|done]. by apply Nat.leb_le.
  - apply IH; [|done]. intros q ?. apply Hc. by right.
Qed.

Lemma order_domain_values_inv (var : Slot) (a : Assignment) (d : Domains)
    (values : list string) :
  order_domain_values cw var a d = Some values →
  ∃ dv : gset string,
    d !! var = Some dv ∧
    values ≡ₚ elements dv ∧
    (∀ value, value ∈ values → is_Some (count_ruled_out cw var d value)) ∧
    StronglySorted (λ v1 v2, default 0 (count_ruled_out cw var d v1)
                             ≤ default 0 (count_ruled_out cw var d v2)) values.
Proof.
  unfold order_domain_values.
  destruct (d !! var) as [dv|]; simpl; [|done].
  destruct (mapM _ (elements dv)) as [counts|] eqn:Hm; simpl; [|done].
  intros [= <-]. apply mapM_pairs in Hm as [Hvalues Hcounts].
  set (le := λ p q : nat * string, p.1 <=? q.1).
  assert (Hperm : stable_sort le counts ≡ₚ counts) by apply stable_sort_perm.
  exists dv. split; [done|]. split; [by rewrite Hperm, Hvalues|]. split.
  - intros value (p & -> & Hp)%list_elem_of_fmap.
    rewrite Hperm in Hp. rewrite (Hcounts p Hp). by eauto.
  - apply strongly_sorted_counts.
    + intros p Hp. apply Hcounts. by rewrite <- Hperm.
    + apply stable_sort_sorted.
      * intros p q. unfold le. destruct (Nat.leb_spec p.1 q.1); [by left|].
        right. apply Nat.leb_le. lia.
      * intros p q r. unfold le. rewrite !Nat.leb_le. lia.
Qed.

(** X12: when [order_domain_values] returns, the list holds every word of
    the domain of [var] once, and the words come in non-decreasing order of
    [counts], the number of neighbor words the loops find them to rule
    out. *)
Theorem order_domain_values_sorted (var : Slot) (a : Assignment) (d : Domains)
    (values : list string) :
  order_domain_values cw var a d = Some values →
  ∃ dv : gset string,
    d !! var = Some dv ∧
    values ≡ₚ elements dv ∧
    (∀ value, value ∈ values → is_Some (count_ruled_out cw var d value)) ∧
    StronglySorted (λ v1 v2, default 0 (count_ruled_out cw var d v1)
                             ≤ default 0 (count_ruled_out cw var d v2)) values.
Proof. apply order_domain_values_inv. Qed.

Lemma count_ruled_out_no_neighbors var (d : Domains) value :
  neighbors cw var = ∅ → count_ruled_out cw var d value = Some 0.
Proof. intros Hn. unfold count_ruled_out. by rewrite Hn, elements_empty. Qed.

(** X13: for a slot without neighbors, [order_domain_values] returns the
    words of its domain in the order in which the set is iterated: the
    sort, which is stable, has nothing to move. *)
Theorem order_domain_values_no_neighbors (var : Slot) (a : Assignment) (d : Domains)
    (dv : gset string) :
  neighbors cw var = ∅ → d !! var = Some dv →
  order_domain_values cw var a d = Some (elements dv).
Proof.
  intros Hn Hv. unfold order_domain_values. rewrite Hv. simpl.
  assert (Hm : mapM (λ value, count ← count_ruled_out cw var d value; Some (count, value))
                    (elements dv) = Some ((λ value, (0, value)) <$> elements dv)).
  { apply mapM_Some, Forall2_fmap_r, Forall_Forall2_diag, Forall_forall.
    intros value _. by rewrite count_ruled_out_no_neighbors. }
  rewrite Hm. simpl. f_equal.
  rewrite stable_sort_flat.
  - rewrite <- list_fmap_compose. apply list_fmap_id.
  - by intros p q (? & -> & _)%list_elem_of_fmap (? & -> & _)%list_elem_of_fmap.
Qed.

Lemma key_le_spec (k1 k2 : nat * Z) :
  key_le k1 k2 = true ↔ k1.1 < k2.1 ∨ (k1.1 = k2.1 ∧ (k1.2 ≤ k2.2)%Z).
Proof.
  unfold key_le. rewrite orb_true_iff, andb_true_iff, Nat.ltb_lt, Nat.eqb_eq, Z.leb_le. done.
Qed.

Lemma sort_key_keyed a (d : Domains) keyed :
  mapM (sort_key cw d) (unassigned cw a) = Some keyed →
  keyed.*2 = unassigned cw a ∧
  ∀ p, p ∈ keyed → ∃ dx : gset string,
    d !! p.2 = Some dx ∧ p.1 = (size dx, (- Z.of_nat (size (neighbors cw p.2)))%Z).
Proof.
  remember (unassigned cw a) as l eqn:Hl. clear Hl.
  intros Hm%mapM_Some. induction Hm as [|x p l k Hp _ IH]; csimpl.
  - split; [done|]. by intros p ?%elem_of_nil.
  - destruct IH as [IH1 IH2]. unfold sort_key in Hp.
    destruct (d !! x) as [dx|] eqn:Hx; simpl in Hp; [|done]. injection Hp as <-.
    split; [by rewrite IH1|]. intros p [->|?]%elem_of_cons; [by exists dx|by apply IH2].
Qed.

(** X14: the slot [select_unassigned_variable] returns is a slot of the
    puzzle without a word in the assignment, and no such slot has fewer
    words left in its domain, nor as many words with more neighbors. *)
Theorem select_unassigned_variable_best (a : Assignment) (d : Domains) (var : Slot) :
  select_unassigned_variable cw a d = Some var →
  var ∈ variables cw ∧ dict_get a var = None ∧
  ∃ dv : gset string, d !! var = Some dv ∧
    ∀ x (dx : gset string), x ∈ variables cw → dict_get a x = None → d !! x = Some dx →
      size dv < size dx ∨
      (size dv = size dx ∧ size (neighbors cw x) ≤ size (neighbors cw var)).
Proof.
  unfold select_unassigned_variable.
  destruct (mapM (sort_key cw d) (unassigned cw a)) as [keyed|] eqn:Hm; simpl; [|done].
  apply sort_key_keyed in Hm as [Hkeys Hkeyed].
  set (le := λ p q : nat * Z * Slot, key_le p.1 q.1).
  rewrite head_map.
  destruct (head (stable_sort le keyed)) as [m|] eqn:Hhead; simpl; [|done].
  intros [= Hvar].
  assert (Hleast : ∀ p, p ∈ keyed → le m p = true).
  { apply (stable_sort_head_least le); [intros; apply key_le_total| |done].
    intros ???; apply key_le_trans. }
  assert (Hin : m ∈ keyed).
  { apply (stable_sort_elem_of le). by eapply head_Some_elem_of. }
  destruct (Hkeyed m Hin) as (dv & Hdv & Hkey). rewrite Hvar in *.
  assert (Hun : var ∈ unassigned cw a).
  { rewrite <- Hkeys, <- Hvar. by apply list_elem_of_fmap_2. }
  apply unassigned_elem_of in Hun as [Hnone Hv].
  split; [done|]. split; [done|]. exists dv. split; [done|].
  intros x dx Hx Hxa Hdx.
  assert (Hxun : x ∈ keyed.*2).
  { rewrite Hkeys. by apply unassigned_elem_of. }
  apply list_elem_of_fmap in Hxun as (p & -> & Hp).
  destruct (Hkeyed p Hp) as (dx' & Hdx' & Hkeyp).
  assert (dx' = dx) as -> by congruence.
  specialize (Hleast p Hp). unfold le in Hleast.
  rewrite key_le_spec, Hkey, Hkeyp in Hleast. simpl in Hleast. lia.
Qed.

(** X15: [select_unassigned_variable] raises exactly when every slot of the
    puzzle has a word in the assignment ([valid[0]] on an empty list) or an
    unassigned slot is not a key of the store. *)
Theorem select_unassigned_variable_raises (a : Assignment) (d : Domains) :
  select_unassigned_variable cw a d = None
  ↔ (∀ x, x ∈ variables cw → is_Some (dict_get a x)) ∨
    (∃ x, x ∈ variables cw ∧ dict_get a x = None ∧ d !! x = None).
Proof.
  split.
  - intros Hsel.
    destruct (decide (Forall (λ x, is_Some (d !! x)) (unassigned cw a))) as [Hall|Hex].
    + left. intros x Hx.
      destruct (dict_get a x) as [w|] eqn:Hxa; [by eauto|]. exfalso.
      destruct (select_unassigned_variable_total cw a d) as [var Hvar]; [| |congruence].
      * intros Hnil. assert (Hin : x ∈ unassigned cw a) by by apply unassigned_elem_of.
        rewrite Hnil in Hin. by apply elem_of_nil in Hin.
      * by apply Forall_forall.
    + right. apply not_Forall_Exists, Exists_exists in Hex as (x & Hx & Hnone); [|apply _].
      apply unassigned_elem_of in Hx as [? ?]. exists x.
      split; [done|]. split; [done|]. by apply eq_None_not_Some.
  - intros [Hall|(x & Hx & Hxa & Hd)]; unfold select_unassigned_variable.
    + assert (unassigned cw a = []) as ->; [|done].
      apply elem_of_nil_inv. intros x [Hxa Hx]%unassigned_elem_of.
      destruct (Hall x Hx) as [w Hw]. congruence.
    + destruct (mapM (sort_key cw d) (unassigned cw a)) as [keyed|] eqn:Hm; [|done].
      exfalso. apply sort_key_keyed in Hm as [Hkeys Hkeyed].
      assert (Hxun : x ∈ keyed.*2).
      { rewrite Hkeys. by apply unassigned_elem_of. }
      apply list_elem_of_fmap in Hxun as (p & -> & Hp).
      destruct (Hkeyed p Hp) as (dx' & Hdx' & _). congruence.
Qed.
End heuristics.

(** ** backtrack and solve *)

Section search_facts.
Context (cw : Crossword).

Lemma current_set_current st (d : Domains) : current (set_current st d) = d.
Proof. unfold current, set_current. simpl. by destruct (decide (cur st = cur st)). Qed.

Lemma store_ok_log e st : store_ok cw st → store_ok cw (log e st).
Proof. done. Qed.

Lemma store_ok_set_cur st l : store_ok cw st → l < next st → store_ok cw (set_cur st l).
Proof. intros [_ Hobjs] Hl. by split. Qed.

Lemma store_ok_set_current st (d : Domains) :
  store_ok cw st → dom d = variables cw → node_consistent d →
  store_ok cw (set_current st d).
Proof.
  intros [Hcur Hobjs] Hdom Hnc. split; [done|]. intros l Hl. simpl.
  destruct (decide (l = cur st)); [done|by apply Hobjs].
Qed.

Lemma store_ok_current st :
  store_ok cw st → dom (current st) = variables cw ∧ node_consistent (current st).
Proof. intros [Hcur Hobjs]. by apply Hobjs. Qed.

Lemma store_ok_deepcopy st :
  store_ok cw st → store_ok cw (deepcopy st).2 ∧ (deepcopy st).1 < next (deepcopy st).2.
Proof.
  intros Hok. pose proof (store_ok_current st Hok) as Hc. destruct Hok as [Hcur Hobjs].
  split; [|simpl; lia]. split; [simpl; lia|]. intros l Hl. simpl in *.
  destruct (decide (l = next st)); [done|]. apply Hobjs. lia.
Qed.

Lemma node_consistent_insert (d : Domains) var value :
  node_consistent d → String.length value = var_length var →
  node_consistent (<[var := {[value]}]> d).
Proof.
  intros Hnc Hlen v ws w. destruct (decide (var = v)) as [->|Hne].
  - rewrite lookup_insert_eq. by intros [= <-] ->%elem_of_singleton.
  - rewrite lookup_insert_ne by done. apply Hnc.
Qed.

Lemma keys_ok_dict_set (a : Assignment) var value :
  keys_ok cw a → var ∈ variables cw → dict_get a var = None →
  keys_ok cw (dict_set a var value).
Proof.
  intros [Hnd Hsub] Hvar Hnone. rewrite (dict_set_fresh _ _ _ Hnone).
  assert (Hni : var ∉ a.*1).
  { intros Hin%dict_get_is_Some. rewrite Hnone in Hin. by destruct Hin. }
  split.
  - rewrite fmap_app. apply NoDup_app. split; [done|]. split; [|apply NoDup_singleton].
    intros v Hv Heq%list_elem_of_singleton. simpl in Heq. by subst.
  - intros v. rewrite fmap_app, elem_of_app. intros [?|Heq%list_elem_of_singleton]; [auto|].
    by rewrite Heq.
Qed.

Lemma lens_ok_dict_set (a : Assignment) var value :
  lens_ok a → String.length value = var_length var → dict_get a var = None →
  lens_ok (dict_set a var value).
Proof.
  intros Hlen Hv Hnone. rewrite (dict_set_fresh _ _ _ Hnone).
  intros v w [?|Heq%list_elem_of_singleton]%elem_of_app; [by apply Hlen|].
  by injection Heq as -> ->.
Qed.

(** the store in which the search of a branch starts *)
Lemma branch_store_ok st var value ok (d3 : Domains) arcs :
  store_ok cw st → var ∈ variables cw → String.length value = var_length var →
  ac3 cw arcs
      (current (set_current (log (Commit var value) st)
                            (<[var := {[value]}]> (current (log (Commit var value) st)))))
  = Some (ok, d3) →
  store_ok cw (set_current
                 (set_current (log (Commit var value) st)
                              (<[var := {[value]}]> (current (log (Commit var value) st))))
                 d3).
Proof.
  intros Hok Hvar Hlen Hac3.
  destruct (store_ok_current st Hok) as [Hdom Hnc].
  change (current (log (Commit var value) st)) with (current st) in *.
  assert (Hdom2 : dom (<[var := {[value]}]> (current st)) = variables cw).
  { rewrite dom_insert_L, Hdom. set_solver. }
  assert (Hnc2 : node_consistent (<[var := {[value]}]> (current st)))
    by by apply node_consistent_insert.
  set (st2 := set_current _ _) in *.
  assert (Hok2 : store_ok cw st2) by by apply store_ok_set_current.
  assert (current st2 = <[var := {[value]}]> (current st)) as Hcur2.
  { unfold st2, current, set_current. simpl. by rewrite decide_True. }
  rewrite Hcur2 in Hac3. apply ac3_shrinks in Hac3 as Hsh.
  apply store_ok_set_current; [done| |by eapply shrinks_node_consistent].
  destruct Hsh as [-> _]. done.
Qed.

Lemma try_values_search_post (rec : Assignment → Store → Outcome)
    var prev values a st out :
  (∀ a1 st1 out1, rec a1 st1 = Some out1 → bt_post a1 out1) →
  (∀ a1 st1 out1, rec a1 st1 = Some out1 →
     keys_ok cw a1 → lens_ok a1 → store_ok cw st1 → search_post cw st1 out1) →
  try_values cw rec var prev values a st = Some out →
  keys_ok cw a → lens_ok a → store_ok cw st → prev < next st →
  var ∈ variables cw → dict_get a var = None →
  (∀ value, value ∈ values → String.length value = var_length var) →
  search_post cw st out.
Proof.
  intros Hpost Hrec Htry Hkeys Hlens Hok Hprev Hvar Hnone.
  revert st Hok Hprev Htry.
  induction values as [|value values IH]; intros st Hok Hprev; simpl; intros Htry Hvalues.
  - injection Htry as <-. split; [done|]. split; [done|]. by intros r [=].
  - assert (Hvalue : String.length value = var_length var) by (apply Hvalues; by left).
    assert (Hrest : ∀ v, v ∈ values → String.length v = var_length var).
    { intros v ?. apply Hvalues. by right. }
    destruct (consistent cw a) as [[]|]; simpl in Htry; [|by apply IH|done].
    destruct (ac3 cw _ _) as [[ok d3]|] eqn:Hac3; simpl in Htry; [|done].
    pose proof (branch_store_ok _ _ _ _ _ _ Hok Hvar Hvalue Hac3) as Hok3.
    destruct (rec _ _) as [[[result a4] st4]|] eqn:Hr; simpl in Htry; [|done].
    pose proof (Hpost _ _ _ Hr) as Hp. unfold bt_post in Hp. simpl in Hp.
    rewrite (dict_set_fresh _ _ _ Hnone) in Hp.
    apply Hrec in Hr as (Hok4 & Hnext4 & Hres);
      [|by apply keys_ok_dict_set|by apply lens_ok_dict_set|done].
    simpl in *.
    destruct (truthy result) eqn:Ht.
    + injection Htry as <-. split; [done|]. split; [done|]. done.
    + assert (a4 = a ++ [(var, value)]) as ->.
      { destruct result as [r|]; [|done]. destruct Hp as (-> & ext & ->).
        simpl in Ht. by destruct a. }
      rewrite (dict_del_fresh _ _ _ Hnone) in Htry. simpl in Htry.
      assert (Hok5 : store_ok cw (set_cur (log (Undo var) st4) prev)).
      { apply store_ok_set_cur; [by apply store_ok_log|simpl; lia]. }
      assert (Hprev5 : prev < next (set_cur (log (Undo var) st4) prev)) by (simpl; lia).
      destruct (IH _ Hok5 Hprev5 Htry Hrest) as (Hok' & Hnext' & Hres').
      split; [done|]. split; [simpl in *; lia|done].
Qed.

Lemma order_domain_values_elem_of var a (d : Domains) values value :
  order_domain_values cw var a d = Some values → value ∈ values →
  ∃ dv : gset string, d !! var = Some dv ∧ value ∈ dv.
Proof.
  intros (dv & Hdv & Hperm & _)%order_domain_values_inv Hin.
  exists dv. split; [done|]. apply elem_of_elements. by rewrite <- Hperm.
Qed.

Lemma backtrack_rec_search_post fuel a st out :
  backtrack_rec cw fuel a st = Some out →
  keys_ok cw a → lens_ok a → store_ok cw st → search_post cw st out.
Proof.
  revert a st out. induction fuel as [|fuel IH]; intros a st out; [done|].
  cbn [backtrack_rec]. intros Hbt Hkeys Hlens Hok.
  destruct (assignment_complete cw a) eqn:Hcomplete.
  - injection Hbt as <-. split; [done|]. split; [done|]. simpl. by intros r [= <-].
  - destruct (select_unassigned_variable cw a _) as [var|] eqn:Hsel;
      cbn [mbind option_bind] in Hbt; [|done].
    apply select_unassigned_variable_spec in Hsel as [[Hnone Hvar]%unassigned_elem_of _].
    pose proof (store_ok_deepcopy (log (Enter a) st) (store_ok_log _ _ Hok)) as [Hok1 Hprev].
    assert (Hnext : next (deepcopy (log (Enter a) st)).2 = S (next st)) by done.
    destruct (deepcopy (log (Enter a) st)) as [prev st1]. simpl in Hok1, Hprev, Hnext.
    destruct (order_domain_values cw var a _) as [values|] eqn:Hvalues;
      cbn [mbind option_bind] in Hbt; [|done].
    eapply try_values_search_post in Hbt as (Hok' & Hnext' & Hres'); try done.
    + split; [done|]. split; [lia|done].
    + intros a1 st0 out1. apply backtrack_rec_post.
    + intros value Hvalue.
      destruct (order_domain_values_elem_of _ _ _ _ _ Hvalues Hvalue) as (dv & Hdv & Hin).
      destruct (store_ok_current st1 Hok1) as [_ Hnc]. by eapply Hnc.
Qed.

Lemma init_store_ok : store_ok cw (set_current (init_store cw)
                                   (enforce_node_consistency (current (init_store cw)))).
Proof.
  split; [simpl; lia|]. intros l Hl. simpl in *.
  assert (l = 0) as -> by lia. rewrite decide_True by done.
  split; [|apply enforce_node_consistency_node_consistent].
  rewrite dom_enforce_node_consistency. apply dom_init_domains.
Qed.

Lemma search_store_ok st2 : search_store cw = Some st2 → store_ok cw st2.
Proof.
  unfold search_store. set (st1 := set_current _ _).
  destruct (ac3 cw None (current st1)) as [[ok d2]|] eqn:Hac3; simpl; [|done].
  intros [= <-]. pose proof init_store_ok as Hok. fold st1 in Hok.
  destruct (store_ok_current st1 Hok) as [Hdom Hnc].
  apply ac3_shrinks in Hac3 as Hsh.
  apply store_ok_set_current; [done| |by eapply shrinks_node_consistent].
  destruct Hsh as [-> _]. done.
Qed.

(** X16: an assignment returned by [solve] has exactly the slots of the
    puzzle as keys, each with a word of the slot's length. *)
Theorem solve_complete_lengths (r : Assignment) (st : Store) :
  solve cw = Some (Some r, st) →
  (∀ v, v ∈ variables cw ↔ is_Some (dict_get r v)) ∧
  (∀ v w, dict_get r v = Some w → String.length w = var_length v).
Proof.
  rewrite solve_search_store.
  destruct (search_store cw) as [st2|] eqn:Hst2; simpl; [|done].
  destruct (backtrack cw [] st2) as [[[result a'] st3]|] eqn:Hbt; simpl; [|done].
  intros [= -> ->]. unfold backtrack in Hbt.
  apply backtrack_rec_search_post in Hbt as (_ & _ & Hres).
  - destruct (Hres r eq_refl) as ([Hnd Hsub] & Hlens & Hcomplete). split.
    + intros v. split.
      * by apply assignment_complete_true.
      * intros ?%dict_get_is_Some. by apply Hsub.
    + intros v w ?%dict_get_Some_elem_of. by apply Hlens.
  - split; [constructor|]. by intros v ?%elem_of_nil.
  - by intros v w ?%elem_of_nil.
  - by apply search_store_ok.
Qed.
End search_facts.

(** ** The search returns *)

Section search_returns.
Context (cw : Crossword).
Hypothesis Hrange : overlaps_in_range cw.
Hypothesis Hclosed : neighbors_closed cw.

Lemma foldlM_total {A B : Type} (f : B → A → option B) (b : B) (l : list A) :
  (∀ b' x, x ∈ l → is_Some (f b' x)) → is_Some (foldlM f b l).
Proof.
  revert b. induction l as [|x l IH]; intros b Hf; simpl; [by eauto|].
  destruct (Hf b x) as [b' ->]; [by left|]. simpl. apply IH.
  intros b'' y ?. apply Hf. by right.
Qed.

Lemma store_arcs_in (d : Domains) (arcs : list Arc) :
  dom d = variables cw →
  (∀ x y, (x, y) ∈ arcs → x ∈ variables cw ∧ y ∈ variables cw) →
  arcs_in cw arcs d.
Proof.
  intros Hdom Harcs. split; rewrite Hdom; [done|]. apply Hclosed.
Qed.

Lemma count_ruled_out_total var (d : Domains) value :
  dom d = variables cw → node_consistent d → var ∈ variables cw →
  String.length value = var_length var →
  is_Some (count_ruled_out cw var d value).
Proof.
  intros Hdom Hnc Hvar Hlen. unfold count_ruled_out.
  apply foldlM_total. intros count neighbor Hn%elem_of_elements.
  assert (Hin : neighbor ∈ dom d) by (rewrite Hdom; by eapply Hclosed).
  apply elem_of_dom in Hin as [dn Hdn]. rewrite Hdn. simpl.
  apply foldlM_total. intros count' nv Hnv%elem_of_elements.
  destruct (check_overlap_in_range cw var neighbor value nv) as [ok ->]; try done.
  by eapply Hnc.
Qed.

Lemma order_domain_values_total var a (d : Domains) :
  dom d = variables cw → node_consistent d → var ∈ variables cw →
  is_Some (order_domain_values cw var a d).
Proof.
  intros Hdom Hnc Hvar. unfold order_domain_values.
  assert (Hin : var ∈ dom d) by by rewrite Hdom.
  apply elem_of_dom in Hin as [dv Hdv]. rewrite Hdv. simpl.
  destruct (mapM_is_Some_2
              (λ value, count ← count_ruled_out cw var d value; Some (count, value))
              (elements dv)) as [counts ->]; [|by eauto].
  apply Forall_forall. intros value Hvalue%elem_of_elements. unfold compose.
  destruct (count_ruled_out_total var d value) as [count ->]; try done.
  by eapply Hnc.
Qed.

Lemma consistent_neighbors_total (a : Assignment) var nbs :
  lens_ok a → is_Some (dict_get a var) → is_Some (consistent_neighbors cw a var nbs).
Proof.
  intros Hlens [value Hvalue]. induction nbs as [|neighbor nbs IH]; simpl; [by eauto|].
  destruct (dict_get a neighbor) as [nv|] eqn:Hnv; [|done]. rewrite Hvalue. simpl.
  destruct (check_overlap_in_range cw var neighbor value nv) as [ok ->]; try done.
  - by apply Hlens, dict_get_Some_elem_of.
  - by apply Hlens, dict_get_Some_elem_of.
  - simpl. by destruct ok.
Qed.

Lemma consistent_items_total (a : Assignment) items (used : gset string) :
  lens_ok a → (∀ v w, (v, w) ∈ items → is_Some (dict_get a v)) →
  is_Some (consistent_items cw a items used).
Proof.
  intros Hlens. revert used.
  induction items as [|[var value] items IH]; intros used Hitems; simpl; [by eauto|].
  destruct (bool_decide _ || bool_decide _); [by eauto|].
  destruct (consistent_neighbors_total a var (elements (neighbors cw var))) as [ok ->];
    [done|by eapply Hitems; left|].
  simpl. destruct ok; [|by eauto]. apply IH. intros v w ?. eapply Hitems. by right.
Qed.

Lemma consistent_total (a : Assignment) : lens_ok a → is_Some (consistent cw a).
Proof.
  intros Hlens. unfold consistent. apply consistent_items_total; [done|].
  intros v w Hin. apply dict_get_is_Some. by apply (list_elem_of_fmap_2 fst) in Hin.
Qed.

Lemma branch_ac3_returns st var value :
  store_ok cw st → var ∈ variables cw → String.length value = var_length var →
  is_Some (ac3 cw (Some ((λ neighbor, (neighbor, var)) <$> elements (neighbors cw var)))
               (current (set_current (log (Commit var value) st)
                          (<[var := {[value]}]> (current (log (Commit var value) st)))))).
Proof.
  intros Hok Hvar Hlen. destruct (store_ok_current cw st Hok) as [Hdom Hnc].
  change (current (log (Commit var value) st)) with (current st).
  assert (current (set_current (log (Commit var value) st)
                     (<[var := {[value]}]> (current st)))
          = <[var := {[value]}]> (current st)) as ->.
  { unfold current, set_current. simpl. by rewrite decide_True. }
  assert (Hdom2 : dom (<[var := {[value]}]> (current st)) = variables cw).
  { rewrite dom_insert_L, Hdom. set_solver. }
  apply ac3_is_Some; [done|by apply node_consistent_insert|].
  apply store_arcs_in; [done|].
  intros x y (n & [= -> ->] & Hn%elem_of_elements)%list_elem_of_fmap.
  split; [by eapply Hclosed|done].
Qed.

Lemma try_values_total (rec : Assignment → Store → Outcome) var prev values a st :
  (∀ a1 st1 out1, rec a1 st1 = Some out1 → bt_post a1 out1) →
  (∀ a1 st1 out1, rec a1 st1 = Some out1 →
     keys_ok cw a1 → lens_ok a1 → store_ok cw st1 → search_post cw st1 out1) →
  (∀ value st1, keys_ok cw (dict_set a var value) → lens_ok (dict_set a var value) →
     store_ok cw st1 → is_Some (rec (dict_set a var value) st1)) →
  keys_ok cw a → lens_ok a → store_ok cw st → prev < next st →
  var ∈ variables cw → dict_get a var = None →
  (∀ value, value ∈ values → String.length value = var_length var) →
  is_Some (try_values cw rec var prev values a st).
Proof.
  intros Hpost Hinv Hrec Hkeys Hlens Hok Hprev Hvar Hnone.
  revert st Hok Hprev.
  induction values as [|value values IH]; intros st Hok Hprev Hvalues;
    cbn [try_values]; [by eauto|].
  assert (Hvalue : String.length value = var_length var) by (apply Hvalues; by left).
  assert (Hrest : ∀ v, v ∈ values → String.length v = var_length var).
  { intros v ?. apply Hvalues. by right. }
  destruct (consistent_total a Hlens) as [ok ->]. cbn [mbind option_bind].
  destruct ok; [|by apply IH].
  destruct (branch_ac3_returns st var value Hok Hvar Hvalue) as [[ok d3] Hac3].
  rewrite Hac3. cbn [mbind option_bind].
  pose proof (branch_store_ok cw _ _ _ _ _ _ Hok Hvar Hvalue Hac3) as Hok3.
  assert (Hkeys1 : keys_ok cw (dict_set a var value)) by by apply keys_ok_dict_set.
  assert (Hlens1 : lens_ok (dict_set a var value)) by by apply lens_ok_dict_set.
  destruct (Hrec value _ Hkeys1 Hlens1 Hok3) as [[[result a4] st4] Hr].
  rewrite Hr. cbn [mbind option_bind].
  pose proof (Hpost _ _ _ Hr) as Hp. unfold bt_post in Hp. simpl in Hp.
  rewrite (dict_set_fresh _ _ _ Hnone) in Hp.
  apply Hinv in Hr as (Hok4 & Hnext4 & _); [|done..]. simpl in Hok4, Hnext4.
  destruct (truthy result) eqn:Ht; [by eauto|].
  assert (a4 = a ++ [(var, value)]) as ->.
  { destruct result as [r|]; [|done]. destruct Hp as (-> & ext & ->).
    simpl in Ht. by destruct a. }
  rewrite (dict_del_fresh _ _ _ Hnone). cbn [mbind option_bind].
  apply IH; [|simpl in *; lia|done].
  apply store_ok_set_cur; [by apply store_ok_log|simpl in *; lia].
Qed.

Lemma backtrack_rec_total fuel a st :
  length (unassigned cw a) < fuel →
  keys_ok cw a → lens_ok a → store_ok cw st →
  is_Some (backtrack_rec cw fuel a st).
Proof.
  revert a st. induction fuel as [|fuel IH]; intros a st Hfuel Hkeys Hlens Hok; [lia|].
  cbn [backtrack_rec].
  destruct (assignment_complete cw a) eqn:Hcomplete; [by eauto|].
  destruct (store_ok_current cw st Hok) as [Hdom Hnc].
  change (current (log (Enter a) st)) with (current st).
  destruct (select_unassigned_variable_total cw a (current st)) as [var Hsel].
  { intros Hnil. destruct Hkeys as [Hnd Hsub].
    assert (assignment_complete cw a = true); [|congruence].
    apply assignment_complete_true; [done..|]. intros v Hv.
    destruct (dict_get a v) as [w|] eqn:Hw; [by eauto|].
    assert (Hin : v ∈ unassigned cw a) by by apply unassigned_elem_of.
    rewrite Hnil in Hin. by apply elem_of_nil in Hin. }
  { intros x [_ Hx]%unassigned_elem_of. apply elem_of_dom. by rewrite Hdom. }
  rewrite Hsel. cbn [mbind option_bind].
  apply select_unassigned_variable_spec in Hsel as [Hun _].
  pose proof Hun as [Hnone Hvar]%unassigned_elem_of.
  pose proof (store_ok_deepcopy cw (log (Enter a) st) (store_ok_log _ _ _ Hok)) as [Hok1 Hprev].
  pose proof (deepcopy_current (log (Enter a) st)) as Hcur.
  destruct (deepcopy (log (Enter a) st)) as [prev st1]. simpl in Hok1, Hprev, Hcur.
  change (current (log (Enter a) st)) with (current st) in Hcur.
  destruct (order_domain_values_total var a (current st1)) as [values Hvalues].
  { by rewrite Hcur. } { by rewrite Hcur. } { done. }
  rewrite Hvalues. cbn [mbind option_bind].
  apply try_values_total; try done.
  - intros a1 st0 out1. apply backtrack_rec_post.
  - intros a1 st0 out1. apply backtrack_rec_search_post.
  - intros value st0 Hk Hl Hs. apply IH; try done.
    pose proof (unassigned_dict_set cw a var value Hun). lia.
  - intros value Hvalue.
    destruct (order_domain_values_elem_of _ _ _ _ _ _ Hvalues Hvalue) as (dv & Hdv & Hin).
    rewrite Hcur in Hdv. by eapply Hnc.
Qed.

Lemma search_store_returns : is_Some (search_store cw).
Proof.
  unfold search_store. set (st1 := set_current _ _).
  pose proof (init_store_ok cw) as Hok. fold st1 in Hok.
  destruct (store_ok_current cw st1 Hok) as [Hdom Hnc].
  destruct (ac3_is_Some cw (elements (all_arcs cw)) (current st1)) as [[ok d2] Hac3];
    [done..| |].
  - apply store_arcs_in; [done|]. intros x y [Hx Hy]%all_arcs_elem_of.
    split; [done|by eapply Hclosed].
  - unfold ac3 in *. rewrite Hac3. simpl. by eauto.
Qed.

(** X17: on a puzzle whose overlaps point inside the slots and whose
    neighbors are slots of the puzzle, [solve] raises nothing and runs out
    of no fuel: it returns an assignment or [None]. *)
Theorem solve_returns : is_Some (solve cw).
Proof.
  rewrite solve_search_store.
  destruct search_store_returns as [st2 Hst2]. rewrite Hst2. simpl.
  destruct (backtrack_rec_total (S (length (unassigned cw []))) [] st2) as [[[r a'] st3] Hbt].
  - lia.
  - split; [constructor|]. by intros v ?%elem_of_nil.
  - by intros v w ?%elem_of_nil.
  - by apply search_store_ok.
  - unfold backtrack. rewrite Hbt. simpl. by eauto.
Qed.
End search_returns.

(** ** The snapshot and the first undo *)

Section snapshot.
Context (cw : Crossword).

Lemma try_values_frame (rec : Assignment → Store → Outcome) var prev values a st out c n :
  (∀ a1 st1 out1, rec a1 st1 = Some out1 → cur st1 < next st1 → heap_frame st1 out1.2) →
  try_values cw rec var prev values a st = Some out →
  n ≤ prev → prev < next st → cur st < next st → (cur st = c ∨ n ≤ cur st) →
  next st ≤ next out.2 ∧ cur out.2 < next out.2 ∧ (cur out.2 = c ∨ n ≤ cur out.2) ∧
  ∀ l, l < n → l ≠ c → objs out.2 l = objs st l.
Proof.
  intros Hrec Htry Hn. revert a st Htry.
  induction values as [|value values IH]; intros a st; cbn [try_values]; intros Htry Hprev Hcur Hc.
  - injection Htry as <-. done.
  - destruct (consistent cw a) as [[]|]; cbn [mbind option_bind] in Htry;
      [|by apply (IH a st)|done].
    destruct (ac3 cw _ _) as [[ok d3]|]; cbn [mbind option_bind] in Htry; [|done].
    set (st3 := set_current (set_current _ _) d3) in Htry.
    destruct (rec _ st3) as [[[result a4] st4]|] eqn:Hr; cbn [mbind option_bind] in Htry;
      [|done].
    apply Hrec in Hr as (Hnext4 & Hcur4 & Hc4 & Hobjs4); [|done]. simpl in *.
    assert (Hobjs3 : ∀ l, l < n → l ≠ c → objs st3 l = objs st l).
    { intros l Hl Hlc. simpl. rewrite !decide_False; [done|lia..]. }
    assert (Hframe : ∀ l, l < n → l ≠ c → objs st4 l = objs st l).
    { intros l Hl Hlc. rewrite Hobjs4; [by apply Hobjs3|lia|lia]. }
    destruct (truthy result).
    + injection Htry as <-. simpl. split; [lia|]. split; [done|]. split; [lia|done].
    + destruct (dict_del a4 var) as [a5|]; cbn [mbind option_bind] in Htry; [|done].
      apply IH in Htry as (Hnext' & Hcur' & Hc' & Hobjs'); simpl; [|lia..].
      simpl in *. split; [lia|]. split; [done|]. split; [done|].
      intros l Hl Hlc. rewrite Hobjs' by done. by apply Hframe.
Qed.

Lemma backtrack_rec_frame fuel a st out :
  backtrack_rec cw fuel a st = Some out → cur st < next st → heap_frame st out.2.
Proof.
  revert a st out. induction fuel as [|fuel IH]; intros a st out; [done|].
  cbn [backtrack_rec]. intros Hbt Hcur.
  destruct (assignment_complete cw a).
  - injection Hbt as <-. split; [done|]. split; [done|]. split; [by left|done].
  - destruct (select_unassigned_variable cw a _) as [var|];
      cbn [mbind option_bind] in Hbt; [|done].
    unfold deepcopy in Hbt.
    destruct (order_domain_values cw var a _) as [values|];
      cbn [mbind option_bind] in Hbt; [|done].
    eapply (try_values_frame _ _ _ _ _ _ _ (cur st) (next st)) in Hbt
      as (Hnext' & Hcur' & Hc' & Hobjs'); simpl; [|by eauto|lia|lia|lia|by left].
    simpl in *. split; [lia|]. split; [done|]. split; [done|].
    intros l Hl Hlc. rewrite Hobjs' by done. rewrite decide_False; [done|lia].
Qed.

(** X18: the undo after the first candidate is exact.  When the first
    branch tried after the snapshot was taken fails (or is not entered),
    the store is left with the contents it had when the snapshot was
    taken. *)
Theorem first_undo_exact (fuel : nat) (var : Slot) (value : string)
    (a a' : Assignment) (st st' : Store) :
  cur st < next st →
  try_values cw (backtrack_rec cw fuel) var (deepcopy st).1 [value] a (deepcopy st).2
  = Some (None, a', st') →
  current st' = current st.
Proof.
  intros Hcur. rewrite <- (deepcopy_current st). cbn [try_values]. intros Htry.
  destruct (consistent cw a) as [[]|]; cbn [mbind option_bind] in Htry;
    [|by injection Htry as _ <-|done].
  destruct (ac3 cw _ _) as [[ok d3]|]; cbn [mbind option_bind] in Htry; [|done].
  set (st3 := set_current (set_current _ _) d3) in Htry.
  destruct (backtrack_rec cw fuel _ st3) as [[[result a4] st4]|] eqn:Hr;
    cbn [mbind option_bind] in Htry; [|done].
  apply backtrack_rec_frame in Hr as (_ & _ & _ & Hobjs); [|simpl; lia].
  destruct (truthy result) eqn:Ht.
  { injection Htry as -> _ _. done. }
  destruct (dict_del a4 var) as [a5|]; cbn [mbind option_bind] in Htry; [|done].
  injection Htry as _ <-. unfold current at 1. simpl.
  simpl in Hobjs. rewrite (Hobjs (next st)); [|lia|lia].
  rewrite !decide_False by lia. rewrite decide_True by done.
  by destruct (decide (cur st = next st)).
Qed.
End snapshot.

(** ** letter_grid *)

Section letter_grid_facts.
Context (height width : nat).

Lemma foldlM_app {A B : Type} (f : B → A → option B) (b : B) (l1 l2 : list A) :
  foldlM f b (l1 ++ l2) = b' ← foldlM f b l1; foldlM f b' l2.
Proof.
  revert b. induction l1 as [|x l1 IH]; intros b; simpl; [done|].
  destruct (f b x) as [b'|]; simpl; [apply IH|done].
Qed.

Lemma grid_set_Some (g : Grid) i j c :
  grid_dims height width g →
  (is_Some (grid_set g i j c) ↔ i < height ∧ j < width).
Proof.
  intros [Hh Hw]. unfold grid_set.
  destruct (g !! i) as [row|] eqn:Hrow; simpl.
  - apply Hw in Hrow as Hlen. apply lookup_lt_Some in Hrow.
    destruct (decide (j < length row)) as [Hj|Hj].
    + split; [intros _; lia|by eauto].
    + split; [by intros [? ?]|lia].
  - apply lookup_ge_None in Hrow. split; [by intros [? ?]|lia].
Qed.

Lemma grid_set_get (g g' : Grid) i j c i' j' :
  grid_set g i j c = Some g' →
  grid_get g' i' j' = if decide (i' = i ∧ j' = j) then Some (Some c) else grid_get g i' j'.
Proof.
  unfold grid_set, grid_get. destruct (g !! i) as [row|] eqn:Hrow; simpl; [|done].
  destruct (decide (j < length row)) as [Hj|]; [|done]. intros [= <-].
  apply lookup_lt_Some in Hrow as Hi.
  destruct (decide (i' = i)) as [->|Hne].
  - rewrite list_lookup_insert_eq by done. simpl.
    destruct (decide (j' = j)) as [->|Hnej].
    + rewrite decide_True by done. by rewrite list_lookup_insert_eq.
    + rewrite decide_False by tauto. rewrite list_lookup_insert_ne by done.
      by rewrite Hrow.
  - rewrite decide_False by tauto. by rewrite list_lookup_insert_ne.
Qed.

Lemma grid_set_dims (g g' : Grid) i j c :
  grid_dims height width g → grid_set g i j c = Some g' → grid_dims height width g'.
Proof.
  intros [Hh Hw]. unfold grid_set. destruct (g !! i) as [row|] eqn:Hrow; simpl; [|done].
  destruct (decide (j < length row)); [|done]. intros [= <-]. split.
  - by rewrite length_insert.
  - intros i' row'. destruct (decide (i' = i)) as [->|Hne].
    + rewrite list_lookup_insert_eq by (by eapply lookup_lt_Some).
      intros [= <-]. rewrite length_insert. by eapply Hw.
    + rewrite list_lookup_insert_ne by done. apply Hw.
Qed.

Lemma blank_grid_dims : grid_dims height width (blank_grid height width).
Proof.
  unfold blank_grid. split; [apply length_replicate|].
  intros i row [-> _]%lookup_replicate. apply length_replicate.
Qed.

Lemma blank_grid_get i j : i < height → j < width →
  grid_get (blank_grid height width) i j = Some None.
Proof.
  intros Hi Hj. unfold grid_get, blank_grid.
  rewrite lookup_replicate_2 by done. simpl. by rewrite lookup_replicate_2.
Qed.

Lemma write_letter_Some (variable : Slot) (word : string) (g g' : Grid) (k : nat) :
  write_letter variable word g k = Some g'
  ↔ ∃ c, String.get k word = Some c ∧
         grid_set g (cell_of variable k).1 (cell_of variable k).2 c = Some g'.
Proof.
  unfold write_letter. destruct (String.get k word) as [c|]; simpl.
  - destruct (cell_of variable k) as [i j]. simpl. split; [by eauto|].
    by intros (c' & [= <-] & ?).
  - split; [done|]. by intros (c' & ? & _).
Qed.

(** the writes of one word, from a letter on *)
Lemma write_letters_spec (variable : Slot) (word : string) (ks : list nat) (g g' : Grid) :
  grid_dims height width g →
  foldlM (write_letter variable word) g ks = Some g' →
  grid_dims height width g' ∧
  (∀ k, k ∈ ks → is_Some (String.get k word) ∧
                 (cell_of variable k).1 < height ∧ (cell_of variable k).2 < width) ∧
  (∀ i j c, grid_get g' i j = Some (Some c) →
     grid_get g i j = Some (Some c) ∨
     ∃ k, k ∈ ks ∧ String.get k word = Some c ∧ cell_of variable k = (i, j)) ∧
  (∀ i j, (∃ c, grid_get g i j = Some (Some c)) ∨ (∃ k, k ∈ ks ∧ cell_of variable k = (i, j)) →
     ∃ c, grid_get g' i j = Some (Some c)).
Proof.
  revert g. induction ks as [|k ks IH]; intros g Hdims; cbn [foldlM].
  - intros [= <-]. split; [done|]. split; [by intros k ?%elem_of_nil|].
    split; [by left|]. by intros i j [?|(k & ?%elem_of_nil & _)].
  - destruct (write_letter variable word g k) as [g1|] eqn:Hstep;
      cbn [mbind option_bind]; [|done].
    apply write_letter_Some in Hstep as (c & Hc & Hset).
    destruct (cell_of variable k) as [ik jk] eqn:Hcell. simpl in Hset.
    intros (Hdims' & Hks & Hfrom & Hto)%IH; [|by eapply grid_set_dims].
    assert (Hin : ik < height ∧ jk < width).
    { apply (grid_set_Some g ik jk c Hdims). by rewrite Hset. }
    split; [done|]. split; [|split].
    + intros k' [->|?]%elem_of_cons; [|by apply Hks]. rewrite Hc, Hcell. by eauto.
    + intros i j c' [Hg1|(k' & ? & ? & ?)]%Hfrom.
      * rewrite (grid_set_get _ _ _ _ _ _ _ Hset) in Hg1.
        destruct (decide (i = ik ∧ j = jk)) as [[-> ->]|]; [|by left].
        injection Hg1 as <-. right. exists k. split; [by left|done].
      * right. exists k'. split; [by right|done].
    + intros i j Hcov. apply Hto.
      rewrite (grid_set_get _ _ _ _ _ _ _ Hset).
      destruct (decide (i = ik ∧ j = jk)) as [[-> ->]|Hne]; [left; by eauto|].
      destruct Hcov as [?|(k' & [->|?]%elem_of_cons & Hk')]; [by left| |right; by eauto].
      rewrite Hcell in Hk'. injection Hk' as <- <-. tauto.
Qed.

Lemma letter_grid_loop_spec (a : Assignment) (g g' : Grid) :
  grid_dims height width g →
  foldlM (λ letters '(variable, word), write_word letters variable word) g a = Some g' →
  grid_dims height width g' ∧
  (∀ variable word k, (variable, word) ∈ a → k < String.length word →
     (cell_of variable k).1 < height ∧ (cell_of variable k).2 < width) ∧
  (∀ i j c, grid_get g' i j = Some (Some c) →
     grid_get g i j = Some (Some c) ∨ covers a i j c) ∧
  (∀ i j, (∃ c, grid_get g i j = Some (Some c)) ∨ (∃ c, covers a i j c) →
     ∃ c, grid_get g' i j = Some (Some c)).
Proof.
  revert g. induction a as [|[variable word] a IH]; intros g Hdims; simpl.
  - intros [= <-]. split; [done|]. split; [by intros ??? ?%elem_of_nil|].
    split; [by left|]. by intros i j [?|(c & v & w & k & ?%elem_of_nil & _)].
  - destruct (write_word g variable word) as [g1|] eqn:Hw; simpl; [|done].
    apply write_letters_spec in Hw as (Hdims1 & Hks & Hfrom1 & Hto1); [|done].
    intros (Hdims' & Hin & Hfrom & Hto)%IH; [|done].
    split; [done|]. split; [|split].
    + intros v w k [[= -> ->]|?]%elem_of_cons Hk; [|by eapply Hin].
      apply Hks, elem_of_seq. lia.
    + intros i j c [Hg1|(v & w & k & ? & ? & ?)]%Hfrom.
      * apply Hfrom1 in Hg1 as [?|(k & ? & ? & ?)]; [by left|].
        right. exists variable, word, k. split; [by left|done].
      * right. exists v, w, k. split; [by right|done].
    + intros i j Hcov. apply Hto.
      destruct Hcov as [?|(c & v & w & k & [[= -> ->]|?]%elem_of_cons & Hc & Hcell)].
      * left. apply Hto1. by left.
      * left. apply Hto1. right. exists k. split; [|done].
        apply elem_of_seq. apply mk_is_Some, string_get_is_Some in Hc. lia.
      * right. exists c, v, w, k. done.
Qed.

(** X19: the grid [letter_grid] returns has [height] rows of [width] cells;
    a cell holds a letter only if that letter of the word of some entry of
    the assignment falls on the cell, and holds [None] exactly when no
    letter of any entry falls on it. *)
Theorem letter_grid_cells (a : Assignment) (g : Grid) :
  letter_grid height width a = Some g →
  grid_dims height width g ∧
  ∀ i j, i < height → j < width →
    ∃ cell, grid_get g i j = Some cell ∧
      (∀ c, cell = Some c → covers a i j c) ∧
      (cell = None ↔ ∀ c, ¬ covers a i j c).
Proof.
  unfold letter_grid. intros (Hdims & _ & Hfrom & Hto)%letter_grid_loop_spec;
    [|apply blank_grid_dims].
  split; [done|]. intros i j Hi Hj.
  assert (Hcell : is_Some (grid_get g i j)).
  { destruct Hdims as [Hh Hw]. unfold grid_get.
    destruct (lookup_lt_is_Some_2 g i) as [row Hrow]; [lia|]. rewrite Hrow. simpl.
    apply lookup_lt_is_Some_2. by rewrite (Hw i row). }
  destruct Hcell as [cell Hcell]. exists cell. split; [done|]. split; [|split].
  - intros c ->. apply Hfrom in Hcell as [Hblank|?]; [|done].
    by rewrite blank_grid_get in Hblank.
  - intros -> c Hc. destruct (Hto i j) as [c' Hc']; [right; by eauto|]. congruence.
  - intros Hno. destruct cell as [c|]; [|done]. exfalso.
    apply Hfrom in Hcell as [Hblank|?]; [|by eapply Hno].
    by rewrite blank_grid_get in Hblank.
Qed.

Lemma write_letters_total (variable : Slot) (word : string) (ks : list nat) (g : Grid) :
  grid_dims height width g →
  (∀ k, k ∈ ks → k < String.length word ∧
                 (cell_of variable k).1 < height ∧ (cell_of variable k).2 < width) →
  is_Some (foldlM (write_letter variable word) g ks).
Proof.
  revert g. induction ks as [|k ks IH]; intros g Hdims Hks; cbn [foldlM]; [by eauto|].
  destruct (Hks k) as (Hk & Hi & Hj); [by left|].
  apply string_get_is_Some in Hk as [c Hc].
  destruct (proj2 (grid_set_Some g (cell_of variable k).1 (cell_of variable k).2 c Hdims))
    as [g1 Hset]; [done|].
  assert (Hstep : write_letter variable word g k = Some g1).
  { apply write_letter_Some. by exists c. }
  rewrite Hstep. cbn [mbind option_bind]. apply IH; [by eapply grid_set_dims|].
  intros k' ?. apply Hks. by right.
Qed.

(** X20: [letter_grid] raises exactly when a letter of some entry of the
    assignment falls outside the grid: it returns if and only if every
    letter of every entry has its cell inside the [height] rows and [width]
    columns. *)
Theorem letter_grid_returns (a : Assignment) :
  is_Some (letter_grid height width a)
  ↔ ∀ variable word k, (variable, word) ∈ a → k < String.length word →
      (cell_of variable k).1 < height ∧ (cell_of variable k).2 < width.
Proof.
  unfold letter_grid. split.
  - intros [g Hg]. by apply letter_grid_loop_spec in Hg as (_ & Hin & _); [|apply blank_grid_dims].
  - generalize (blank_grid_dims). generalize (blank_grid height width).
    induction a as [|[variable word] a IH]; intros g Hdims Hin; simpl; [by eauto|].
    destruct (write_letters_total variable word (seq 0 (String.length word)) g) as [g1 Hw];
      [done| |].
    { intros k Hk%elem_of_seq. split; [lia|]. apply (Hin variable word k); [by left|lia]. }
    unfold write_word. rewrite Hw. cbn [mbind option_bind].
    apply IH.
    + by apply write_letters_spec in Hw as [? _].
    + intros v w k ? ?. apply (Hin v w k); [by right|done].
Qed.
End letter_grid_facts.

(** ** Empty domains *)

Section empty_domains.
Context (cw : Crossword).

Lemma find_support_nil x y w : find_support cw x y w [] = Some false.
Proof. done. Qed.

(** X21: when [domain(y)] is empty, [revise(x, y)] removes every word of
    [domain(x)]; it returns [True] unless [domain(x)] was empty already. *)
Theorem revise_empty_neighbor (x y : Slot) (d : Domains) (dx : gset string) :
  x ≠ y → d !! x = Some dx → d !! y = Some ∅ →
  revise cw x y d = Some (bool_decide (dx ≠ ∅), <[x := ∅]> d).
Proof.
  intros Hxy Hx Hy.
  assert (Hverdict : ∀ w, verdict cw x y d w = Some false).
  { intros w. unfold verdict. rewrite Hy. simpl. by rewrite elements_empty. }
  destruct (revise_Some cw x y d dx Hx) as (rev & rem & -> & Hrem & Hrev).
  { intros w _. by rewrite Hverdict. }
  assert (rem = dx) as ->.
  { apply set_eq. intros w. rewrite Hrem. by split; [intros [? _]|]. }
  f_equal. f_equal; [|by rewrite difference_diag_L].
  destruct rev.
  - symmetry. apply bool_decide_eq_true. destruct Hrev as [Hrev _].
    destruct (Hrev eq_refl) as (w & Hw & _). set_solver.
  - symmetry. apply bool_decide_eq_false. intros Hne. apply dec_stable.
    intros Hdx. destruct Hrev as [_ Hrev]. assert (false = true); [|done].
    apply Hrev. apply set_choose_L in Hne as [w Hw]. by exists w.
Qed.

Lemma ac3_spec_emptied_domain queue d d' :
  ac3_spec cw queue d (Some (false, d')) →
  ∃ x (dx : gset string), d' !! x = Some ∅ ∧ d !! x = Some dx ∧ dx ≠ ∅.
Proof.
  intros H. remember (Some (false, d')) as out eqn:Hout.
  induction H as [d|x y queue d Hr|x y queue d d1 out Hr _ IH
                  |x y queue d d1 Hr Hx|x y queue d d1 dx out Hr Hx Hne _ IH]; try done.
  - apply revise_false_id in Hr as ->. by apply IH.
  - injection Hout as <-. exists x.
    apply revise_inv in Hr as (dx & rem & Hdx & -> & _ & _ & Hrev).
    exists dx. split; [done|]. split; [done|].
    destruct Hrev as [Hrev _]. destruct (Hrev eq_refl) as (w & Hw & _). set_solver.
  - destruct (IH Hout) as (z & dz & Hz' & Hz & Hnez). exists z.
    apply revise_shrinks in Hr as [_ Hsub].
    destruct (Hsub z dz Hz) as (dz0 & Hdz0 & Hincl). exists dz0.
    split; [done|]. split; [done|]. set_solver.
Qed.

(** X22: when [ac3] returns [False], the store holds an empty domain that
    was not empty when [ac3] was called: the pass emptied it. *)
Theorem ac3_false_emptied (arcs : option (list Arc)) (d d' : Domains) :
  ac3 cw arcs d = Some (false, d') →
  ∃ x (dx : gset string), d' !! x = Some ∅ ∧ d !! x = Some dx ∧ dx ≠ ∅.
Proof. unfold ac3. intros H%ac3_queue_refines. by eapply ac3_spec_emptied_domain. Qed.

Lemma revise_empty_domain x y (d : Domains) :
  d !! x = Some ∅ → revise cw x y d = Some (false, d).
Proof.
  intros Hx. unfold revise. rewrite Hx. simpl. rewrite elements_empty. simpl.
  f_equal. f_equal. rewrite difference_empty_L. by apply insert_id.
Qed.

Lemma ac3_spec_all_empty queue (d : Domains) :
  (∀ x y, (x, y) ∈ queue → d !! x = Some ∅) →
  ac3_spec cw queue d (Some (true, d)).
Proof.
  induction queue as [|[x y] queue IH]; intros Hq; [constructor|].
  eapply ac3_spec_unchanged.
  - apply revise_empty_domain. apply (Hq x y). by left.
  - apply IH. intros a b ?. apply (Hq a b). by right.
Qed.

(** X23: a domain that is empty before [ac3] runs is not noticed.  When the
    first slot of every given arc has an empty domain, [ac3] removes
    nothing and returns [True], with the empty domains in the store. *)
Theorem ac3_empty_domains_unnoticed (arcs : list Arc) (d : Domains) :
  (∀ x y, (x, y) ∈ arcs → d !! x = Some ∅) →
  ac3 cw (Some arcs) d = Some (true, d).
Proof. intros Harcs. unfold ac3. by apply ac3_queue_refines, ac3_spec_all_empty. Qed.

(** X24: for a puzzle without slots, [solve] returns the empty assignment
    (not [None]). *)
Theorem solve_no_slots :
  variables cw = ∅ → ∃ st, solve cw = Some (Some [], st) ∧ trace st = [Enter []].
Proof.
  intros Hvars. unfold solve.
  assert (Harcs : elements (all_arcs cw) = []).
  { apply elements_empty_iff, leibniz_equiv_iff, leibniz_equiv. apply set_equiv.
    intros [x y]. rewrite <- elem_of_elements, all_arcs_elem_of, Hvars. set_solver. }
  assert (Hac3 : ∀ d, ac3 cw None d = Some (true, d)).
  { intros d. unfold ac3. rewrite Harcs. apply ac3_queue_refines. constructor. }
  rewrite Hac3. cbn [mbind option_bind]. unfold backtrack. cbn [backtrack_rec].
  assert (assignment_complete cw [] = true) as ->.
  { unfold assignment_complete. apply bool_decide_eq_true. by rewrite Hvars, size_empty. }
  cbn [mbind option_bind]. eauto.
Qed.
End empty_domains.

(** X25: when a slot of the puzzle has a length that no word of the
    vocabulary has, [solve] returns [None], whatever the other slots: node
    consistency empties the slot's domain and the first call of
    [backtrack] finds nothing to try. *)
Theorem solve_unfillable_slot (cw : Crossword) (v : Slot) :
  overlaps_in_range cw → neighbors_closed cw →
  v ∈ variables cw →
  (∀ w, w ∈ words cw → String.length w ≠ var_length v) →
  ∃ st, solve cw = Some (None, st) ∧ trace st = [Enter []].
Proof.
  intros Hrange Hclosed Hv Hwords. rewrite solve_search_store.
  destruct (search_store_returns cw Hrange Hclosed) as [st2 Hst2].
  rewrite Hst2. cbn [mbind option_bind].
  assert (Hempty : current st2 !! v = Some ∅).
  { unfold search_store in Hst2. set (st1 := set_current _ _) in Hst2.
    assert (Hcur1 : current st1 = enforce_node_consistency (init_domains cw))
      by apply current_set_current.
    destruct (ac3 cw None (current st1)) as [[ok d2]|] eqn:Hac3; simpl in Hst2; [|done].
    injection Hst2 as <-. rewrite current_set_current.
    rewrite Hcur1 in Hac3. apply ac3_shrinks in Hac3 as [Hdom Hsub].
    assert (Hin : v ∈ dom d2).
    { by rewrite Hdom, dom_enforce_node_consistency, dom_init_domains. }
    apply elem_of_dom in Hin as [dv Hdv]. rewrite Hdv. f_equal.
    destruct (Hsub v dv Hdv) as (ws & Hws & Hincl).
    rewrite enforce_node_consistency_lookup, init_domains_lookup_dec in Hws.
    rewrite decide_True in Hws by done. simpl in Hws. injection Hws as <-.
    apply set_eq. intros w. split; [|set_solver].
    intros [Hlen Hw]%Hincl%elem_of_filter. by destruct (Hwords w). }
  destruct (backtrack_empty_domain cw st2 v) as (st' & Hbt & Htrace); try done.
  { apply search_store_ok in Hst2. by apply store_ok_current in Hst2 as [? _]. }
  rewrite Hbt. cbn [mbind option_bind]. exists st'. split; [done|].
  rewrite Htrace. apply search_store_ok in Hst2 as Hok.
  assert (trace st2 = []) as ->; [|done].
  unfold search_store in Hst2. destruct (ac3 cw None _) as [[ok d2]|]; simpl in Hst2; [|done].
  by injection Hst2 as <-.
Qed.

(** ** The properties on concrete puzzles *)

Lemma corner_neighbors_symmetric vocabulary : neighbors_symmetric (corner vocabulary).
Proof.
  intros x y. simpl. unfold corner_neighbors.
  destruct (decide (x = across)) as [->|]; [|destruct (decide (x = down)) as [->|]].
  - intros ->%elem_of_singleton. rewrite decide_False by done. rewrite decide_True by done.
    by apply elem_of_singleton.
  - intros ->%elem_of_singleton. rewrite decide_True by done. by apply elem_of_singleton.
  - by intros ?%elem_of_empty.
Qed.

Lemma corner_neighbors_irreflexive vocabulary : neighbors_irreflexive (corner vocabulary).
Proof.
  intros x. simpl. unfold corner_neighbors.
  destruct (decide (x = across)) as [->|]; [|destruct (decide (x = down)) as [->|]].
  - by intros ?%elem_of_singleton.
  - by intros ?%elem_of_singleton.
  - by intros ?%elem_of_empty.
Qed.

Lemma corner_neighbors_closed vocabulary : neighbors_closed (corner vocabulary).
Proof.
  intros x y _. simpl. unfold corner_neighbors.
  destruct (decide (x = across)) as [->|]; [|destruct (decide (x = down)) as [->|]].
  - intros ->%elem_of_singleton. set_solver.
  - intros ->%elem_of_singleton. set_solver.
  - by intros ?%elem_of_empty.
Qed.

Lemma revise_twice_witness :
  revise (corner {["AB"; "AC"; "CD"]}) across down
         (<[across := {["AB"; "AC"]}]> (init_domains (corner {["AB"; "AC"; "CD"]})))
  = Some (false, <[across := {["AB"; "AC"]}]> (init_domains (corner {["AB"; "AC"; "CD"]}))).
Proof.
  apply (revise_twice (corner {["AB"; "AC"; "CD"]}) across down
           (init_domains (corner {["AB"; "AC"; "CD"]})) _ true).
  - discriminate.
  - vm_compute. reflexivity.
Defined.

Lemma revise_raises_witness :
  revise (corner {["AB"; "CAT"]}) across down
         (enforce_node_consistency (init_domains (corner {["AB"; "CAT"]}))) = None
  ↔ enforce_node_consistency (init_domains (corner {["AB"; "CAT"]})) !! across = None ∨
    (enforce_node_consistency (init_domains (corner {["AB"; "CAT"]})) !! across ≠ Some ∅ ∧
     enforce_node_consistency (init_domains (corner {["AB"; "CAT"]})) !! down = None).
Proof.
  apply revise_raises.
  - split; [discriminate|]. simpl. split; set_solver.
  - apply corner_overlaps_in_range.
  - apply enforce_node_consistency_node_consistent.
Defined.

Lemma node_consistent_preserved_witness :
  node_consistent (<[across := {["AB"; "AC"]}]> (init_domains (corner {["AB"; "AC"; "CD"]}))).
Proof.
  assert (Hnc : node_consistent (init_domains (corner {["AB"; "AC"; "CD"]}))).
  { assert (init_domains (corner {["AB"; "AC"; "CD"]})
            = enforce_node_consistency (init_domains (corner {["AB"; "AC"; "CD"]}))) as ->
      by (vm_compute; reflexivity).
    apply enforce_node_consistency_node_consistent. }
  apply (proj1 (node_consistent_preserved (corner {["AB"; "AC"; "CD"]}) _ _ Hnc)
           across down true).
  vm_compute. reflexivity.
Defined.

Lemma ac3_arc_consistent_witness :
  arc_consistent (corner {["AB"; "AC"; "CD"]})
    (<[down := {["AB"; "AC"]}]>
       (<[across := {["AB"; "AC"]}]> (init_domains (corner {["AB"; "AC"; "CD"]}))))
    across down.
Proof.
  apply (ac3_arc_consistent (corner {["AB"; "AC"; "CD"]})
           (init_domains (corner {["AB"; "AC"; "CD"]}))).
  - apply corner_neighbors_symmetric.
  - apply corner_neighbors_irreflexive.
  - apply corner_overlaps_symmetric.
  - vm_compute. reflexivity.
  - simpl. set_solver.
  - simpl. unfold corner_neighbors. rewrite decide_True by done. set_solver.
Defined.


Lemma across_down_NoDup : NoDup [across; down].
Proof. apply NoDup_cons. split; [by intros ?%list_elem_of_singleton|apply NoDup_singleton]. Qed.

Lemma assignment_complete_spec_witness :
  assignment_complete (corner {["AB"; "AC"]}) [(across, "AB"); (down, "AC")] = true
  ↔ ∀ v, v ∈ variables (corner {["AB"; "AC"]}) →
         is_Some (dict_get [(across, "AB"); (down, "AC")] v).
Proof.
  apply assignment_complete_spec.
  - apply across_down_NoDup.
  - intros v. simpl. set_solver.
Defined.

Lemma consistent_spec_witness :
  consistent (corner {["AB"; "AC"]}) [(across, "AB"); (down, "AC")] = Some true
  ↔ (∀ v w, (v, w) ∈ [(across, "AB"); (down, "AC")] → String.length w = var_length v) ∧
    NoDup [(across, "AB"); (down, "AC")].*2 ∧
    (∀ v w n w', (v, w) ∈ [(across, "AB"); (down, "AC")] →
       n ∈ neighbors (corner {["AB"; "AC"]}) v → (n, w') ∈ [(across, "AB"); (down, "AC")] →
       compatible (corner {["AB"; "AC"]}) v n w w').
Proof. apply consistent_spec. apply across_down_NoDup. Defined.

Lemma order_domain_values_sorted_witness :
  ∃ dv : gset string,
    init_domains (corner {["AB"; "AC"; "CD"]}) !! across = Some dv ∧
    ["AC"; "AB"; "CD"] ≡ₚ elements dv ∧
    (∀ value, value ∈ ["AC"; "AB"; "CD"] →
       is_Some (count_ruled_out (corner {["AB"; "AC"; "CD"]}) across
                                (init_domains (corner {["AB"; "AC"; "CD"]})) value)) ∧
    StronglySorted
      (λ v1 v2,
         default 0 (count_ruled_out (corner {["AB"; "AC"; "CD"]}) across
                                    (init_domains (corner {["AB"; "AC"; "CD"]})) v1)
         ≤ default 0 (count_ruled_out (corner {["AB"; "AC"; "CD"]}) across
                                      (init_domains (corner {["AB"; "AC"; "CD"]})) v2))
      ["AC"; "AB"; "CD"].
Proof.
  apply (order_domain_values_sorted (corner {["AB"; "AC"; "CD"]}) across []).
  vm_compute. reflexivity.
Defined.

Lemma order_domain_values_no_neighbors_witness :
  order_domain_values two_rows (row 0 3) [] (init_domains two_rows)
  = Some (elements ({["CAT"]} : gset string)).
Proof.
  apply order_domain_values_no_neighbors; [reflexivity|]. vm_compute. reflexivity.
Defined.

Lemma select_unassigned_variable_best_witness :
  down ∈ variables (corner {["AB"; "AC"; "CD"]}) ∧ dict_get ([] : Assignment) down = None ∧
  ∃ dv : gset string, init_domains (corner {["AB"; "AC"; "CD"]}) !! down = Some dv ∧
    ∀ x (dx : gset string), x ∈ variables (corner {["AB"; "AC"; "CD"]}) →
      dict_get ([] : Assignment) x = None → init_domains (corner {["AB"; "AC"; "CD"]}) !! x = Some dx →
      size dv < size dx ∨
      (size dv = size dx ∧
       size (neighbors (corner {["AB"; "AC"; "CD"]}) x)
       ≤ size (neighbors (corner {["AB"; "AC"; "CD"]}) down)).
Proof.
  apply (select_unassigned_variable_best (corner {["AB"; "AC"; "CD"]}) []).
  vm_compute. reflexivity.
Defined.

Lemma solve_complete_lengths_witness :
  ∃ r st, solve (corner {["AB"; "AC"; "CD"]}) = Some (Some r, st) ∧
    (∀ v, v ∈ variables (corner {["AB"; "AC"; "CD"]}) ↔ is_Some (dict_get r v)) ∧
    (∀ v w, dict_get r v = Some w → String.length w = var_length v).
Proof.
  assert (Hres : (λ out, bool_decide (is_Some out.1))
                 <$> solve (corner {["AB"; "AC"; "CD"]}) = Some true)
    by (vm_compute; reflexivity).
  destruct (solve (corner {["AB"; "AC"; "CD"]})) as [[[r|] st]|] eqn:Hsolve;
    [|discriminate..].
  exists r, st. split; [reflexivity|].
  apply (solve_complete_lengths (corner {["AB"; "AC"; "CD"]}) r st). exact Hsolve.
Defined.

Lemma solve_returns_witness : is_Some (solve (corner {["AB"; "AC"; "CD"]})).
Proof.
  apply solve_returns; [apply corner_overlaps_in_range|apply corner_neighbors_closed].
Defined.

Lemma first_undo_exact_witness :
  ∃ a' st',
    try_values four_rows (backtrack_rec four_rows 4) (row 6 2)
               (deepcopy (init_store four_rows)).1 ["CD"] []
               (deepcopy (init_store four_rows)).2
    = Some (None, a', st') ∧
    current st' = current (init_store four_rows).
Proof.
  assert (Hres : (λ out, out.1.1)
                 <$> try_values four_rows (backtrack_rec four_rows 4) (row 6 2)
                       (deepcopy (init_store four_rows)).1 ["CD"] []
                       (deepcopy (init_store four_rows)).2 = Some None)
    by (vm_compute; reflexivity).
  destruct (try_values four_rows (backtrack_rec four_rows 4) (row 6 2)
              (deepcopy (init_store four_rows)).1 ["CD"] []
              (deepcopy (init_store four_rows)).2) as [[[r a'] st']|] eqn:Htry;
    [|discriminate].
  injection Hres as ->. exists a', st'. split; [reflexivity|].
  apply (first_undo_exact four_rows 4 (row 6 2) "CD" [] a' (init_store four_rows) st').
  - simpl. lia.
  - exact Htry.
Defined.

Lemma letter_grid_cells_witness :
  grid_dims 2 2 [[Some "A"%char; Some "B"%char]; [Some "C"%char; None]] ∧
  ∀ i j, i < 2 → j < 2 →
    ∃ cell, grid_get [[Some "A"%char; Some "B"%char]; [Some "C"%char; None]] i j = Some cell ∧
      (∀ c, cell = Some c → covers [(across, "AB"); (down, "AC")] i j c) ∧
      (cell = None ↔ ∀ c, ¬ covers [(across, "AB"); (down, "AC")] i j c).
Proof. apply (letter_grid_cells 2 2 [(across, "AB"); (down, "AC")]). reflexivity. Defined.

Lemma revise_empty_neighbor_witness :
  revise (corner {["AB"]}) across down (<[down := ∅]> (init_domains (corner {["AB"]})))
  = Some (bool_decide (({["AB"]} : gset string) ≠ ∅),
          <[across := ∅]> (<[down := ∅]> (init_domains (corner {["AB"]})))).
Proof.
  apply revise_empty_neighbor; [discriminate| |]; vm_compute; reflexivity.
Defined.

Lemma ac3_false_emptied_witness :
  ∃ x (dx : gset string),
    ({[across := {["AB"]}; down := ∅]} : Domains) !! x = Some ∅ ∧
    init_domains (corner {["AB"]}) !! x = Some dx ∧ dx ≠ ∅.
Proof.
  apply (ac3_false_emptied (corner {["AB"]}) None). vm_compute. reflexivity.
Defined.

Lemma ac3_empty_domains_unnoticed_witness :
  ac3 (corner {["CAT"]}) (Some [(across, down); (down, across)])
      (enforce_node_consistency (init_domains (corner {["CAT"]})))
  = Some (true, enforce_node_consistency (init_domains (corner {["CAT"]}))).
Proof.
  apply ac3_empty_domains_unnoticed.
  intros x y [[= -> ->]|[= -> ->]%list_elem_of_singleton]%elem_of_cons;
    vm_compute; reflexivity.
Defined.

Lemma solve_no_slots_witness :
  ∃ st, solve (mkCrossword ∅ {["CAT"]} no_overlaps no_neighbors) = Some (Some [], st) ∧
        trace st = [Enter []].
Proof. apply solve_no_slots. reflexivity. Defined.

Lemma solve_unfillable_slot_witness :
  ∃ st, solve (corner {["CAT"]}) = Some (None, st) ∧ trace st = [Enter []].
Proof.
  apply (solve_unfillable_slot (corner {["CAT"]}) across).
  - apply corner_overlaps_in_range.
  - apply corner_neighbors_closed.
  - simpl. set_solver.
  - simpl. intros w ->%elem_of_singleton. discriminate.
Defined.
